(** * The script of the portfolio page (script.js)

    A shallow embedding of [script.js]: the nebula background
    ([initNebulaBackground]: [resize], [Node.reset], [Node.update],
    [Node.draw], [animate]), the wireframe globe ([init3DGlobe]), the
    contact form ([sendMessage]), [throttle] and its two listeners, the
    theme toggle, [typeText], [TextScramble], the uptime counter, the
    cursor, the boot sequence, the scroll reveal and the voxel model.

    JavaScript numbers are IEEE-754 binary64 values.  The program text is
    embedded once, over an interface [JSNumber] of the operations the
    script uses, and read at two instances:
    - [ieee]: Rocq's primitive binary64 floats, the arithmetic a JavaScript
      engine performs; every definition evaluates there;
    - [ideal]: the real numbers, arithmetic without rounding.
    Results on what is computed, compared and drawn, and in which order,
    are proved for every instance, so for binary64.  Results that rest on
    the laws of arithmetic are proved at [ideal] and say so.  Runs on
    concrete inputs are evaluated at [ieee].

    [Math.random] is the host's: the script neither seeds nor replaces
    it.  A run is given the values the successive calls return, as a
    function [nat -> num] of the number of the call, and a cursor counts
    the calls made. *)

From Stdlib Require Import List Bool Arith ZArith String Lia.
From Stdlib Require Import Reals Lra.
From Stdlib Require Uint63 PrimFloat FloatOps.
From Stdlib Require DecimalString DecimalN Nnat.
Import ListNotations.

(** ** Numbers *)

Declare Scope js_scope.
Delimit Scope js_scope with js.

Class JSNumber (num : Type) : Type := {
  (** the decimal literal [n/d] of the program text *)
  lit : Z -> positive -> num;
  add : num -> num -> num;
  sub : num -> num -> num;
  mul : num -> num -> num;
  (** [a < b] *)
  ltb : num -> num -> bool;
  Math_sqrt : num -> num;
  Math_abs : num -> num
}.

Notation "a + b" := (add a b) : js_scope.
Notation "a - b" := (sub a b) : js_scope.
Notation "a * b" := (mul a b) : js_scope.
Notation "a <? b" := (ltb a b) : js_scope.
(** [a > b] is [b < a], also on NaN. *)
Notation "a >? b" := (ltb b a) : js_scope.

(** The integers of the program text are literals with denominator one. *)
Definition int {num} `{JSNumber num} (n : Z) : num := lit n 1.

(** *** The real numbers *)

Definition Rltb (a b : R) : bool := if Rlt_dec a b then true else false.

#[export] Instance ideal : JSNumber R := {
  lit n d := (IZR n / IZR (Zpos d))%R;
  add := Rplus;
  sub := Rminus;
  mul := Rmult;
  ltb := Rltb;
  Math_sqrt := R_sqrt.sqrt;
  Math_abs := Rabs
}.

(** *** Binary64 *)

Definition float_of_Z (n : Z) : PrimFloat.float :=
  match n with
  | Zneg p => PrimFloat.opp (PrimFloat.of_uint63 (Uint63.of_Z (Zpos p)))
  | _ => PrimFloat.of_uint63 (Uint63.of_Z n)
  end.

(** A decimal literal denotes the double nearest to it; for the literals of
    the script (numerator and denominator below 2^53) that is the correctly
    rounded quotient. *)
#[export] Instance ieee : JSNumber PrimFloat.float := {
  lit n d := PrimFloat.div (float_of_Z n) (float_of_Z (Zpos d));
  add := PrimFloat.add;
  sub := PrimFloat.sub;
  mul := PrimFloat.mul;
  ltb := PrimFloat.ltb;
  Math_sqrt := PrimFloat.sqrt;
  Math_abs := PrimFloat.abs
}.

(** ** Loops

    [for (let i = lo; i < hi; i++) body(i)] where the body changes neither
    [i] nor [hi]: [hi - lo] iterations when [lo <= hi], none otherwise. *)

Fixpoint for_from {St : Type} (count i : nat) (body : nat -> St -> St) (s : St) : St :=
  match count with
  | O => s
  | S count' => for_from count' (S i) body (body i s)
  end.

Definition for_range {St : Type} (lo hi : nat) (body : nat -> St -> St) (s : St) : St :=
  for_from (hi - lo) lo body s.

(** ** [Math.random]

    A computation that calls [Math.random] is given the values the calls
    return, by number of call, and maps the number of calls made before
    it (the cursor) to a result and the cursor after it. *)

Definition Rand (num A : Type) : Type := (nat -> num) -> nat -> A * nat.

Definition ret {num A} (a : A) : Rand num A := fun _ k => (a, k).

Definition bind {num A B} (m : Rand num A) (f : A -> Rand num B) : Rand num B :=
  fun source k => let (a, k') := m source k in f a source k'.

Notation "x <- m ;; f" := (bind m (fun x => f))
  (at level 61, m at next level, right associativity).

(** [Math.random()] *)
Definition Math_random {num} : Rand num num := fun source k => (source k, S k).

(** ** The nebula background *)

Module Nebula.

Section Program.

Context {num : Type} `{JSNumber num}.
Local Open Scope js_scope.

(** [class Node]: the fields [reset] assigns. *)
Record Node : Type := mkNode {
  x : num;
  y : num;
  size : num;
  speedX : num;
  speedY : num;
  opacity : num
}.

(** The closure of [initNebulaBackground]: [width], [height], the size of
    the canvas element, the array [nodes] and the cursor of the random
    source. *)
Record State : Type := mkState {
  width : num;
  height : num;
  canvas_width : num;
  canvas_height : num;
  nodes : list Node;
  cursor : nat
}.

(** [window.innerWidth], [window.innerHeight] *)
Record Window : Type := mkWindow {
  innerWidth : num;
  innerHeight : num
}.

(** [resize()]:
    [width = canvas.width = window.innerWidth;
     height = canvas.height = window.innerHeight;] *)
Definition resize (win : Window) (st : State) : State :=
  {| width := innerWidth win;
     height := innerHeight win;
     canvas_width := innerWidth win;
     canvas_height := innerHeight win;
     nodes := nodes st;
     cursor := cursor st |}.

(** [Node.reset()]: six calls of [Math.random], in the order of the text. *)
Definition reset (width height : num) : Rand num Node :=
  r1 <- Math_random ;;
  r2 <- Math_random ;;
  r3 <- Math_random ;;
  r4 <- Math_random ;;
  r5 <- Math_random ;;
  r6 <- Math_random ;;
  ret {| x := r1 * width;
         y := r2 * height;
         size := r3 * int 2 + int 1;
         speedX := (r4 - lit 5 10) * lit 8 10;
         speedY := (r5 - lit 5 10) * lit 8 10;
         opacity := r6 * lit 5 10 + lit 2 10 |}.

(** [this.x += this.speedX; this.y += this.speedY;] *)
Definition advance (p : Node) : Node :=
  {| x := x p + speedX p;
     y := y p + speedY p;
     size := size p;
     speedX := speedX p;
     speedY := speedY p;
     opacity := opacity p |}.

(** [this.x < 0 || this.x > width || this.y < 0 || this.y > height] *)
Definition outside (width height : num) (p : Node) : bool :=
  (x p <? int 0) || (x p >? width) || (y p <? int 0) || (y p >? height).

(** [Node.update()] *)
Definition update (width height : num) (p : Node) : Rand num Node :=
  let p' := advance p in
  if outside width height p' then reset width height else ret p'.

(** What a frame does, in order.  [Dot] and [Pair] carry the array indices
    the loops were at (the canvas does not see them); [canvas] gives the
    calls on the 2D context each one stands for. *)
Inductive Event : Type :=
| Clear (w h : num)
| Dot (i : nat) (p : Node)
| Pair (i j : nat) (p1 p2 : Node) (line : bool).

Inductive DrawOp : Type :=
| clearRect (x0 y0 w h : num)
| strokeStyle (alpha : num)
| lineWidth (w : num)
| fillStyle (alpha : num)
| beginPath
| arc (cx cy r : num)
| fill
| moveTo (px py : num)
| lineTo (px py : num)
| stroke.

(** [ctx.clearRect(0, 0, width, height);
     ctx.strokeStyle = 'rgba(0, 255, 100, 0.05)'; ctx.lineWidth = 1;],
    [Node.draw()] (a full circle), and the body of [if (dist < 150)]. *)
Definition canvas (e : Event) : list DrawOp :=
  match e with
  | Clear w h => [clearRect (int 0) (int 0) w h; strokeStyle (lit 5 100); lineWidth (int 1)]
  | Dot _ p => [fillStyle (opacity p); beginPath; arc (x p) (y p) (size p); fill]
  | Pair _ _ p1 p2 true => [beginPath; moveTo (x p1) (y p1); lineTo (x p2) (y p2); stroke]
  | Pair _ _ _ _ false => []
  end.

(** [nodes[i]] is an object: [p1.update()] changes the element in place. *)
Fixpoint set_nth {A : Type} (i : nat) (a : A) (l : list A) : list A :=
  match l, i with
  | [], _ => []
  | _ :: l', O => a :: l'
  | b :: l', S i' => b :: set_nth i' a l'
  end.

(** The closure with its array and cursor replaced; [width], [height]
    and the canvas stay. *)
Definition put (st : State) (ns : list Node) (k : nat) : State :=
  {| width := width st;
     height := height st;
     canvas_width := canvas_width st;
     canvas_height := canvas_height st;
     nodes := ns;
     cursor := k |}.

(** [dx = p1.x - p2.x; dy = p1.y - p2.y; dist = Math.sqrt(dx*dx + dy*dy)] *)
Definition dist (p1 p2 : Node) : num :=
  let dx := x p1 - x p2 in
  let dy := y p1 - y p2 in
  Math_sqrt (dx * dx + dy * dy).

(** The body of [for (let j = i+1; j < nodes.length; j++)]. *)
Definition connect (i : nat) (p1 : Node) (j : nat) (fr : State * list Event)
  : State * list Event :=
  let (st, log) := fr in
  match nth_error (nodes st) j with
  | Some p2 => (st, log ++ [Pair i j p1 p2 (dist p1 p2 <? int 150)])
  | None => fr
  end.

(** The body of [for (let i = 0; i < nodes.length; i++)]:
    [p1 = nodes[i]; p1.update(); p1.draw();] and the inner loop. *)
Definition visit (source : nat -> num) (i : nat) (fr : State * list Event)
  : State * list Event :=
  let (st, log) := fr in
  match nth_error (nodes st) i with
  | Some p =>
      let (p1, k) := update (width st) (height st) p source (cursor st) in
      let st' := put st (set_nth i p1 (nodes st)) k in
      for_range (i + 1)%nat (List.length (nodes st')) (connect i p1) (st', log ++ [Dot i p1])
  | None => fr
  end.

(** [animate()], one frame: the state after it and what it drew.  The
    next frame is the host's ([requestAnimationFrame(animate)]). *)
Definition animate (source : nat -> num) (st : State) : State * list Event :=
  for_range 0 (List.length (nodes st)) (visit source) (st, [Clear (width st) (height st)]).

(** [tick()] of the specification is the effect of a frame on the field. *)
Definition tick (source : nat -> num) (st : State) : State :=
  fst (animate source st).

(** [window.innerWidth < 800 ? 30 : 60] *)
Definition nodeCount (win : Window) : nat :=
  if innerWidth win <? int 800 then 30 else 60.

(** [Array.from({ length: n }, () => new Node())]: the constructor runs
    [reset], element by element. *)
Fixpoint Array_from (n : nat) (mk : Rand num Node) : Rand num (list Node) :=
  match n with
  | O => ret []
  | S n' => p <- mk ;; l <- Array_from n' mk ;; ret (p :: l)
  end.

(** The closure before [resize()] has run: [let width, height;] hold no
    number yet and nothing reads them; the array does not exist. *)
Definition blank (seed : nat) : State :=
  {| width := int 0; height := int 0;
     canvas_width := int 0; canvas_height := int 0;
     nodes := []; cursor := seed |}.

(** [initNebulaBackground()] up to and including the construction of
    [nodes]: [resize();] then [Array.from]. *)
Definition construct (source : nat -> num) (seed : nat) (win : Window) : State :=
  let st := resize win (blank seed) in
  let (ns, k) := Array_from (nodeCount win) (reset (width st) (height st))
                            source (cursor st) in
  put st ns k.

(** [initNebulaBackground()]: nothing happens without the canvas element
    ([if(!canvas) return;]); otherwise the field is built and the first
    frame runs at once ([animate();]). *)
Definition initNebulaBackground (has_canvas : bool) (source : nat -> num)
    (seed : nat) (win : Window) : option (State * list Event) :=
  if has_canvas then Some (animate source (construct source seed win)) else None.

(** What the host does to a running background. *)
Inductive Call : Type :=
| Frame
| Resized (win : Window).

Definition step (source : nat -> num) (st : State) (c : Call) : State :=
  match c with
  | Frame => tick source st
  | Resized win => resize win st
  end.

(** The states after each call of a sequence, in order. *)
Fixpoint trajectory (source : nat -> num) (st : State) (cs : list Call) : list State :=
  match cs with
  | [] => []
  | c :: cs' => let st' := step source st c in st' :: trajectory source st' cs'
  end.

(** A run: the field [initNebulaBackground] leaves and the states after
    each later call. *)
Definition run (has_canvas : bool) (source : nat -> num) (seed : nat) (win : Window)
    (cs : list Call) : option (list State) :=
  match initNebulaBackground has_canvas source seed win with
  | Some (st, _) => Some (st :: trajectory source st cs)
  | None => None
  end.

(** *** A frame, read off the array

    The two loops of [animate] pass over the array once: the element at
    [i] is updated and drawn, then compared with the elements after it as
    they then are, which is as they were before the frame. *)

(** The inner loop over the elements [rest], the first of them at [j]. *)
Fixpoint pair_events (i : nat) (p1 : Node) (j : nat) (rest : list Node) : list Event :=
  match rest with
  | [] => []
  | p2 :: rest' =>
      Pair i j p1 p2 (dist p1 p2 <? int 150) :: pair_events i p1 (S j) rest'
  end.

(** The outer loop over the elements [todo], the first of them at [i]:
    the elements after it, the cursor after it, and what was drawn. *)
Fixpoint sweep (source : nat -> num) (w h : num) (i : nat) (todo : list Node) (k : nat)
  : list Node * nat * list Event :=
  match todo with
  | [] => ([], k, [])
  | p :: rest =>
      let (p1, k1) := update w h p source k in
      let '(rest', k2, evs) := sweep source w h (S i) rest k1 in
      (p1 :: rest', k2, Dot i p1 :: pair_events i p1 (S i) rest ++ evs)
  end.

(** The index pairs a frame compared, and those it joined by a line. *)
Definition examined (log : list Event) : list (nat * nat) :=
  flat_map (fun e => match e with Pair i j _ _ _ => [(i, j)] | _ => [] end) log.

Definition lines (log : list Event) : list (nat * nat) :=
  flat_map (fun e => match e with Pair i j _ _ true => [(i, j)] | _ => [] end) log.

(** The index pairs [(a, b)] with [i <= a < b < i + n], row by row. *)
Fixpoint all_pairs (i n : nat) : list (nat * nat) :=
  match n with
  | O => []
  | S n' => map (pair i) (seq (S i) n') ++ all_pairs (S i) n'
  end.

(** A line between the elements at [i] and [j] is on the canvas. *)
Definition line_drawn (log : list Event) (i j : nat) : Prop :=
  exists p1 p2, In (Pair i j p1 p2 true) log.

(** The node [reset] builds from the six draws at cursor [k]. *)
Definition fresh (source : nat -> num) (w h : num) (k : nat) : Node :=
  {| x := source k * w;
     y := source (k + 1)%nat * h;
     size := source (k + 2)%nat * int 2 + int 1;
     speedX := (source (k + 3)%nat - lit 5 10) * lit 8 10;
     speedY := (source (k + 4)%nat - lit 5 10) * lit 8 10;
     opacity := source (k + 5)%nat * lit 5 10 + lit 2 10 |}.

End Program.

End Nebula.

(** ** The wireframe globe: the neighbour test of [init3DGlobe.draw]

    [radius] is [width * 0.35] for the [width] the function reads, a
    name that is free in [init3DGlobe]: no declaration of it is in scope
    of the function, so it is a global of the page or nothing
    ([GlobeFrame.init3DGlobe] below).  The test is given the radius. *)

Module Globe.

Section Program.

Context {num : Type} `{JSNumber num}.
Local Open Scope js_scope.

Record Particle : Type := mkParticle {
  x : num;
  y : num;
  z : num
}.

(** [const radius = width * 0.35;] *)
Definition radius_of (width : num) : num := width * lit 35 100.

(** [dx*dx + dy*dy + dz*dz] for [dx = p.x - p2.x], ... *)
Definition dist2 (p p2 : Particle) : num :=
  let dx := x p - x p2 in
  let dy := y p - y p2 in
  let dz := z p - z p2 in
  dx * dx + dy * dy + dz * dz.

(** The body of the inner loop: [true] when the segment to [p2] is added
    to the path.
    [if (Math.abs(dx) > radius*0.6) continue;
     if ((dx*dx + dy*dy + dz*dz) < (radius*radius * 0.3)) { ... }] *)
Definition linked (radius : num) (p p2 : Particle) : bool :=
  let dx := x p - x p2 in
  if Math_abs dx >? radius * lit 6 10 then false
  else dist2 p p2 <? radius * radius * lit 3 10.




(** [for (let j = i+1; j < particles.length; j++)] with a test: the
    indices [j] whose segment from [p] is added. *)
Definition neighbours (test : Particle -> Particle -> bool) (particles : list Particle)
    (i : nat) (p : Particle) : list nat :=
  for_range (i + 1)%nat (List.length particles)
    (fun j acc =>
       match nth_error particles j with
       | Some p2 => if test p p2 then acc ++ [j] else acc
       | None => acc
       end) [].

End Program.

End Globe.

(** ** The contact form: [window.sendMessage] *)

Module Contact.

Local Open Scope string_scope.

(** The [.send-btn] element: its text and the two inline styles the
    function writes. *)
Record Button : Type := mkButton {
  innerText : string;
  pointerEvents : string;
  color : string
}.

(** The inputs [#email] and [#message], taken to be controls of
    [#contact-form]: their values, and the default values the markup gives
    them (the [value] attribute of an input, the content of a textarea;
    empty when the markup gives none). *)
Record Form : Type := mkForm {
  email : string;
  message : string;
  email_default : string;
  message_default : string
}.

Record Request : Type := mkRequest {
  url : string;
  method : string;
  headers : list (string * string);
  body : list (string * string)
}.

(** The callback given to [setTimeout] closes over [originalText]. *)
Record Timer : Type := mkTimer {
  delay : Z;
  revert_to : string
}.

(** What the function does to the world, in order. *)
Inductive Action : Type :=
| SetText (s : string)
| SetPointerEvents (s : string)
| SetColor (s : string)
| Fetch (r : Request)
| FormReset
| ConsoleError
| SetTimeout (t : Timer).

Record Page : Type := mkPage {
  form : option Form;
  btn : option Button;
  timers : list Timer;
  trace : list Action
}.

(** How the awaited [fetch] ends: a response with its [ok] flag, or a
    rejection (network failure). *)
Inductive Outcome : Type :=
| Responded (ok : bool)
| Rejected.

(** [!s] for a string. *)
Definition falsy (s : string) : bool :=
  match s with
  | EmptyString => true
  | String _ _ => false
  end.

(** [form.reset()]: every control of the form returns to its default
    value. *)
Definition Form_reset (f : Form) : Form :=
  {| email := email_default f;
     message := message_default f;
     email_default := email_default f;
     message_default := message_default f |}.

Definition the_request (f : Form) : Request :=
  {| url := "https://formsubmit.co/ajax/nithish1436m@gmail.com";
     method := "POST";
     headers := [("Content-Type", "application/json"); ("Accept", "application/json")];
     body := [("email", email f); ("message", message f);
              ("_subject", "New Transmission from NM. Portfolio!")] |}.

(** [sendMessage] up to the [await]: the guards, the sending state and the
    call of [fetch].  [Some originalText] when the function is suspended
    on the request, [None] when it has returned. *)
Definition start (pg : Page) : Page * option string :=
  match btn pg, form pg with
  | Some b, Some f =>
      if falsy (email f) || falsy (message f) then (pg, None)
      else
        let originalText := innerText b in
        let b' := {| innerText := "[ TRANSMITTING... ]";
                     pointerEvents := "none";
                     color := color b |} in
        ({| form := form pg;
            btn := Some b';
            timers := timers pg;
            trace := trace pg ++ [SetText "[ TRANSMITTING... ]"; SetPointerEvents "none";
                                  Fetch (the_request f)] |},
         Some originalText)
  | _, _ => (pg, None)
  end.

(** The rest of the [try], the [catch] and the [finally], once [fetch] has
    ended with [o].  A response that is not [ok] throws into the [catch]. *)
Definition settle (o : Outcome) (originalText : string) (pg : Page) : Page :=
  let t := {| delay := 3000; revert_to := originalText |} in
  match btn pg with
  | Some b =>
      match o with
      | Responded true =>
          {| form := option_map Form_reset (form pg);
             btn := Some {| innerText := "[ TRANSMISSION SUCCESS ]";
                            pointerEvents := pointerEvents b;
                            color := "var(--highlight-color)" |};
             timers := timers pg ++ [t];
             trace := trace pg ++ [SetText "[ TRANSMISSION SUCCESS ]";
                                   SetColor "var(--highlight-color)";
                                   FormReset; SetTimeout t] |}
      | _ =>
          {| form := form pg;
             btn := Some {| innerText := "[ FAILED. RETRY? ]";
                            pointerEvents := pointerEvents b;
                            color := "#ff3333" |};
             timers := timers pg ++ [t];
             trace := trace pg ++ [SetText "[ FAILED. RETRY? ]"; SetColor "#ff3333";
                                   ConsoleError; SetTimeout t] |}
      end
  | None => pg
  end.

(** The whole call, for a request that ends with [o]. *)
Definition sendMessage (o : Outcome) (pg : Page) : Page :=
  match start pg with
  | (pg', Some originalText) => settle o originalText pg'
  | (pg', None) => pg'
  end.


(** The requests a trace holds. *)
Definition requests (tr : list Action) : list Request :=
  flat_map (fun a => match a with Fetch r => [r] | _ => [] end) tr.

End Contact.

(** ** The words of the specification, over the real numbers *)

Module Surface.

Import Nebula.
Local Open Scope R_scope.

(** [Math.random] returns a number in [[0, 1)]. *)
Definition unit_source (source : nat -> R) : Prop :=
  forall k, 0 <= source k < 1.

(** The specification's region [[0,width) x [0,height)]. *)
Definition in_surface (w h : R) (p : @Node R) : Prop :=
  (0 <= x p < w) /\ (0 <= y p < h).

(** The region with its right and bottom edges. *)
Definition on_surface (w h : R) (p : @Node R) : Prop :=
  (0 <= x p <= w) /\ (0 <= y p <= h).

(** The Euclidean distance between the positions of two nodes. *)
Definition euclid (p1 p2 : @Node R) : R :=
  sqrt ((x p1 - x p2) * (x p1 - x p2) + (y p1 - y p2) * (y p1 - y p2)).

(** The ranges of the fields of a node that [reset] has built. *)
Definition fresh_ranges (w h : R) (q : @Node R) : Prop :=
  (0 <= x q < w) /\ (0 <= y q < h)
  /\ (-0.4 <= speedX q < 0.4) /\ (-0.4 <= speedY q < 0.4)
  /\ (1 <= size q < 3)
  /\ (0.2 <= opacity q < 0.7).

End Surface.

(** ** Concrete fields *)

Module Samples.

Import Nebula.

Section Generic.

Context {num : Type} `{JSNumber num}.

(** A source whose every draw is 0.8125: [reset] then gives the speed
    [(0.8125 - 0.5) * 0.8 = 0.25] on both axes. *)
Definition steady : nat -> num := fun _ => lit 8125 10000.

(** A node a quarter of a unit short of the right edge of an 800 x 600
    surface, moving right by a quarter of a unit per frame. *)
Definition right_edge_node : @Node num :=
  {| x := lit 79975 100; y := int 10; size := int 1;
     speedX := lit 25 100; speedY := int 0; opacity := lit 5 10 |}.


(** Two nodes on one horizontal line, 150.125 apart, both moving right by
    a quarter of a unit per frame. *)
Definition left_node : @Node num :=
  {| x := int 100; y := int 100; size := int 1;
     speedX := lit 25 100; speedY := int 0; opacity := lit 5 10 |}.

Definition right_node : @Node num :=
  {| x := lit 250125 1000; y := int 100; size := int 1;
     speedX := lit 25 100; speedY := int 0; opacity := lit 5 10 |}.




(** Two nodes at rest: one at the origin, one at [(90, 120 - 2^-46)],
    a little less than 150 away ([90, 120, 150] is a right triangle).
    The second coordinate is [8444249301319679 / 2^46], a number binary64
    holds exactly. *)
Definition origin_node : @Node num :=
  {| x := int 0; y := int 0; size := int 1;
     speedX := int 0; speedY := int 0; opacity := lit 5 10 |}.

Definition short_node : @Node num :=
  {| x := int 90; y := lit 8444249301319679 70368744177664; size := int 1;
     speedX := int 0; speedY := int 0; opacity := lit 5 10 |}.

Definition field (ns : list (@Node num)) : @State num :=
  {| width := int 800; height := int 600;
     canvas_width := int 800; canvas_height := int 600;
     nodes := ns; cursor := 0 |}.

Definition window_800_600 : @Window num :=
  {| innerWidth := int 800; innerHeight := int 600 |}.

(** A source whose first draw is 799.75/800, whose fourth is 0.8125 and
    whose others are 0.5: the first node [reset] builds for an 800 x 600
    surface is [right_edge_node] but for its height, size and opacity. *)
Definition edge_source : nat -> num :=
  fun k => match k with
           | 0 => lit 79975 80000
           | 3 => lit 8125 10000
           | _ => lit 5 10
           end.






End Generic.

Local Open Scope string_scope.

(** The page before any message was sent, with both inputs filled; the
    markup gives them no default value. *)
Definition pristine : Contact.Page :=
  {| Contact.form := Some {| Contact.email := "a@b.c"; Contact.message := "hello";
                             Contact.email_default := "";
                             Contact.message_default := "" |};
     Contact.btn := Some {| Contact.innerText := "[ SEND ]";
                            Contact.pointerEvents := "";
                            Contact.color := "" |};
     Contact.timers := [];
     Contact.trace := [] |}.

(** The same page with the message left empty. *)
Definition no_message : Contact.Page :=
  {| Contact.form := Some {| Contact.email := "a@b.c"; Contact.message := "";
                             Contact.email_default := "";
                             Contact.message_default := "" |};
     Contact.btn := Contact.btn pristine;
     Contact.timers := [];
     Contact.trace := [] |}.


End Samples.

(** ** [throttle(func, limit)]

    The closure of one throttled function: the flag [inThrottle]
    ([undefined] at first, which [!] reads as false), the timers it has
    set and that have not fired, and the state [func] acts on.  [func] is
    called with the arguments of the call it serves. *)

Module Throttle.

Section Program.

Variables Arg St : Type.
Variable func : Arg -> St -> St.
Variable limit : nat.

Record Closure : Type := mkClosure {
  inThrottle : bool;
  timers : list nat;
  target : St
}.

Definition fresh (s : St) : Closure :=
  {| inThrottle := false; timers := []; target := s |}.

(** The function [throttle] returns:
    [if (!inThrottle) { func.apply(context, args); inThrottle = true;
                        setTimeout(() => inThrottle = false, limit); }] *)
Definition wrapped (a : Arg) (c : Closure) : Closure :=
  if inThrottle c then c
  else {| inThrottle := true;
          timers := timers c ++ [limit];
          target := func a (target c) |}.

(** The callback of the oldest timer: [() => inThrottle = false]. *)
Definition expire (c : Closure) : Closure :=
  match timers c with
  | [] => c
  | _ :: ts => {| inThrottle := false; timers := ts; target := target c |}
  end.

(** What the host does: it calls the function, or a timer is due. *)
Inductive Event : Type :=
| Call (a : Arg)
| Timeout.

Definition handle (c : Closure) (e : Event) : Closure :=
  match e with
  | Call a => wrapped a c
  | Timeout => expire c
  end.

Definition run (c : Closure) (evs : list Event) : Closure :=
  fold_left handle evs c.

(** The calls of a sequence that come when no call has been served since
    the last timeout ([busy] says whether one has, at the start). *)
Fixpoint admitted (busy : bool) (evs : list Event) : list Arg :=
  match evs with
  | [] => []
  | Call a :: evs' => if busy then admitted true evs' else a :: admitted true evs'
  | Timeout :: evs' => admitted false evs'
  end.

Definition timeouts (evs : list Event) : nat :=
  List.length (filter (fun e => match e with Timeout => true | Call _ => false end) evs).

Definition is_call (e : Event) : Prop :=
  match e with Call _ => True | Timeout => False end.

(** The flag is set exactly while a timer is waiting, and at most one
    is. *)
Definition consistent (c : Closure) : Prop :=
  List.length (timers c) <= 1 /\ (inThrottle c = true <-> timers c <> []).

End Program.

Arguments Call {Arg} a.
Arguments Timeout {Arg}.
Arguments inThrottle {St} c.
Arguments timers {St} c.
Arguments target {St} c.
Arguments fresh {St} s.
Arguments wrapped {Arg St} func limit a c.
Arguments expire {St} c.
Arguments handle {Arg St} func limit c e.
Arguments run {Arg St} func limit c evs.
Arguments admitted {Arg} busy evs.
Arguments timeouts {Arg} evs.
Arguments is_call {Arg} e.
Arguments consistent {St} c.

End Throttle.

(** ** [initNavbarScroll]

    The scroll listener is [throttle(handler, 100)]; the handler reads
    [window.scrollY] when it runs and sets or removes the class
    [scrolled] of the navbar. *)

Module Navbar.

Section Program.

Context {num : Type} `{JSNumber num}.
Local Open Scope js_scope.

(** [if (window.scrollY > 50) navbar.classList.add('scrolled');
     else navbar.classList.remove('scrolled');]
    The state is whether the class is set. *)
Definition handler (scrollY : num) (scrolled : bool) : bool :=
  if scrollY >? int 50 then true else false.

(** The listener, with the closure [throttle] gave it. *)
Definition on_scroll : num -> Throttle.Closure bool -> Throttle.Closure bool :=
  Throttle.wrapped handler 100.

(** [initNavbarScroll()]: nothing without the element, else the
    listener over a navbar whose class list is as the page has it. *)
Definition initNavbarScroll (navbar : option bool) : option (Throttle.Closure bool) :=
  match navbar with
  | Some scrolled => Some (Throttle.fresh scrolled)
  | None => None
  end.

End Program.

End Navbar.

(** The resize listener of the nebula background:
    [window.addEventListener('resize', throttle(resize, 200))]; the call
    carries the window as it is at the event. *)
Definition on_resize {num : Type}
  : Nebula.Window -> Throttle.Closure (@Nebula.State num)
    -> Throttle.Closure (@Nebula.State num) :=
  Throttle.wrapped Nebula.resize 200.

(** ** [initThemeToggle] *)

Module Theme.

Local Open Scope string_scope.

(** The two pictures the button shows: [HalfMoon] for the first-quarter
    moon the script writes when the theme is ['dark'], [NewMoon] for the
    new moon it writes otherwise. *)
Inductive Icon : Type := HalfMoon | NewMoon.

(** [localStorage.getItem('theme')] ([None] for [null]), the attribute
    [data-theme] of the root element ([None] when absent), and the
    button's [innerHTML] when the button exists ([None] inside for a
    button the script has not written). *)
Record Page : Type := mkPage {
  stored : option string;
  attribute : option string;
  button : option (option Icon)
}.

(** [!s] for a string or [null]. *)
Definition missing (s : option string) : bool :=
  match s with
  | None => true
  | Some EmptyString => true
  | Some (String _ _) => false
  end.

(** [theme === 'dark' ? HalfMoon : NewMoon] *)
Definition icon_of (theme : string) : Icon :=
  if String.eqb theme "dark" then HalfMoon else NewMoon.

(** [initThemeToggle()]; [prefers_light] is
    [window.matchMedia('(prefers-color-scheme: light)').matches].  The
    result says whether the click listener was added. *)
Definition initThemeToggle (prefers_light : bool) (pg : Page) : Page * bool :=
  match button pg with
  | None => (pg, false)
  | Some _ =>
      let savedTheme :=
        if missing (stored pg) then (if prefers_light then "light" else "dark")
        else match stored pg with Some s => s | None => "" end in
      ({| stored := stored pg;
          attribute := Some savedTheme;
          button := Some (Some (icon_of savedTheme)) |}, true)
  end.

(** The click listener. *)
Definition click (pg : Page) : Page :=
  let currentTheme :=
    if missing (attribute pg) then "dark"
    else match attribute pg with Some s => s | None => "" end in
  let newTheme := if String.eqb currentTheme "dark" then "light" else "dark" in
  {| stored := Some newTheme;
     attribute := Some newTheme;
     button := match button pg with
               | Some _ => Some (Some (icon_of newTheme))
               | None => None
               end |}.

End Theme.

(** ** [typeText]

    Strings are sequences of characters of one code unit each (the
    command texts of the page are ASCII). *)

Module Typing.

Import Ascii.
Local Open Scope string_scope.

(** [s.replace('_', '')] with a string pattern: the first occurrence
    only. *)
Fixpoint remove_first (c : ascii) (s : string) : string :=
  match s with
  | EmptyString => EmptyString
  | String d s' => if Ascii.eqb d c then s' else String d (remove_first c s')
  end.

(** [text.charAt(i)]: the empty string past the end. *)
Definition charAt (text : string) (i : nat) : string :=
  match String.get i text with
  | Some c => String c EmptyString
  | None => EmptyString
  end.

(** The element's [innerText] and the counter [i] of the closure. *)
Record Typer : Type := mkTyper {
  innerText : string;
  i : nat
}.

(** The timer a call of [type] sets: [setTimeout(type, speed)] or the
    removal of the cursor after 500 ms. *)
Inductive Timer : Type :=
| Again (ms : nat)
| Finish (ms : nat).

(** [element.innerHTML = '<span class="cursor-blink">_</span>'; let i = 0;]
    the element then reads ["_"]. *)
Definition begin : Typer := {| innerText := "_"; i := 0 |}.

(** [type()] *)
Definition type (text : string) (speed : nat) (t : Typer) : Typer * Timer :=
  if (i t <? String.length text)%nat then
    let content := remove_first "_" (innerText t) in
    ({| innerText := content ++ charAt text (i t) ++ "_"; i := S (i t) |}, Again speed)
  else (t, Finish 500).

(** [() => element.innerText = element.innerText.replace('_', '')] *)
Definition finish (t : Typer) : Typer :=
  {| innerText := remove_first "_" (innerText t); i := i t |}.

(** The timers fire one after the other; [fuel] bounds the calls of
    [type]. *)
Fixpoint play (fuel : nat) (text : string) (speed : nat) (t : Typer) : option Typer :=
  match fuel with
  | O => None
  | S fuel' =>
      match type text speed t with
      | (t', Again _) => play fuel' text speed t'
      | (t', Finish _) => Some (finish t')
      end
  end.

(** [typeText(element, text, speed)] run to its end: what the element
    reads then, [Some None] when there is no element
    ([if(!element) return;]). *)
Definition typeText (fuel : nat) (element : bool) (text : string) (speed : nat)
  : option (option string) :=
  if element then option_map (fun t => Some (innerText t)) (play fuel text speed begin)
  else Some None.

(** The character [c] occurs in [s]. *)
Fixpoint occurs (c : ascii) (s : string) : bool :=
  match s with
  | EmptyString => false
  | String d s' => Ascii.eqb d c || occurs c s'
  end.

End Typing.

(** ** [initUptimeCounter] *)


Module Uptime.

Import Ascii.
Local Open Scope string_scope.
Local Open Scope N_scope.

(** [n.toString()] for a whole number that is not negative. *)
Definition toString (n : N) : string :=
  DecimalString.NilEmpty.string_of_uint (N.to_uint n).

Fixpoint fill (n : nat) (c : ascii) : string :=
  match n with
  | O => EmptyString
  | S n' => String c (fill n' c)
  end.

(** [s.padStart(len, c)]: [s] itself when it is long enough. *)
Definition padStart (len : nat) (c : ascii) (s : string) : string :=
  fill (len - String.length s)%nat c ++ s.

(** The text the callback writes for [sec]:
    [h = Math.floor(sec/3600), m = Math.floor((sec%3600)/60), s = sec%60],
    each [toString().padStart(2,'0')], joined by colons. *)
Definition clock (sec : N) : string :=
  padStart 2 "0" (toString (sec / 3600)) ++ ":"
  ++ padStart 2 "0" (toString ((sec mod 3600) / 60)) ++ ":"
  ++ padStart 2 "0" (toString (sec mod 60)).

(** [sec] of the closure and the element's [textContent]. *)
Record Counter : Type := mkCounter {
  sec : N;
  textContent : string
}.

(** [initUptimeCounter()]: nothing without the element; else [sec = 0]
    and the text the page has. *)
Definition initUptimeCounter (counter : option string) : option Counter :=
  match counter with
  | Some text => Some {| sec := 0; textContent := text |}
  | None => None
  end.

(** The callback of [setInterval(..., 1000)]. *)
Definition tick (c : Counter) : Counter :=
  let sec' := (sec c + 1)%N in
  {| sec := sec'; textContent := clock sec' |}.

(** What a text of digits reads as. *)
Definition value (s : string) : option N :=
  option_map N.of_uint (DecimalString.NilEmpty.uint_of_string s).

End Uptime.

(** ** [Math.floor] *)


(** [Math.floor] on a finite number, as a whole number.  (On NaN and the
    infinities, which the script does not floor, it is set to 0.) *)
Class JSFloor (num : Type) : Type := {
  Math_floor : num -> Z
}.

#[export] Instance ideal_floor : JSFloor R := {
  Math_floor := Int_part
}.

Definition float_floor (f : PrimFloat.float) : Z :=
  match FloatOps.Prim2SF f with
  | SpecFloat.S754_finite s m e =>
      if (0 <=? e)%Z then
        (if s then Z.opp (Zpos m * 2 ^ e) else Zpos m * 2 ^ e)%Z
      else
        (if s then Z.opp ((Zpos m + 2 ^ (Z.opp e) - 1) / 2 ^ (Z.opp e))
         else Zpos m / 2 ^ (Z.opp e))%Z
  | _ => 0%Z
  end.

#[export] Instance ieee_floor : JSFloor PrimFloat.float := {
  Math_floor := float_floor
}.

(** ** What an element holds after [el.innerHTML = html]

    The browser parses the string as markup.  A string without [<], [&],
    carriage return and null character holds no tag and no character
    reference and is taken as it is: the element then holds one text
    with exactly the string.  What the parser builds from other strings
    is not modelled. *)

Module Markup.

Definition special (c : Ascii.ascii) : bool :=
  existsb (Ascii.eqb c) (map Ascii.ascii_of_nat [0; 13; 38; 60]).

Fixpoint plain (s : string) : bool :=
  match s with
  | EmptyString => true
  | String c s' => negb (special c) && plain s'
  end.

Definition parsed (html : string) : option string :=
  if plain html then Some html else None.

End Markup.

(** ** [class TextScramble]

    A character is one code unit of a JavaScript string, written as the
    text it prints; a string of the script is the list of its
    characters. *)

Module Scramble.

Local Open Scope string_scope.

Definition jschar : Type := string.

(** [this.chars = '!<>-_\\/[]{}—=+*^?#________'], 26 characters. *)
Definition chars : list jschar :=
  ["!"; "<"; ">"; "-"; "_"; "\"; "/"; "["; "]"; "{"; "}"; "—"; "="; "+"; "*"; "^";
   "?"; "#"; "_"; "_"; "_"; "_"; "_"; "_"; "_"; "_"].

(** An entry of [this.queue]; [char] is absent until [update] sets it. *)
Record Item : Type := mkItem {
  from : jschar;
  to : jschar;
  start : Z;
  end_ : Z;
  char : option jschar
}.

(** The object and its element: the string last assigned to
    [el.innerHTML], the queue, the frame counter, whether the promise is
    resolved and whether an animation frame is requested. *)
Record Scrambler : Type := mkScrambler {
  innerHTML : string;
  queue : list Item;
  frame : Z;
  resolved : bool;
  frameRequest : bool
}.

(** The text the element holds, where the string assigned is plain. *)
Definition textContent (s : Scrambler) : option string := Markup.parsed (innerHTML s).

(** [s[i] || '']: the empty string past the end. *)
Definition at_or_empty (s : list jschar) (i : nat) : jschar := nth i s "".

(** The double quote. *)
Definition quote : string :=
  String (Ascii.Ascii false true false false false true false false) EmptyString.

(** [`<span class="dud">${char}</span>`] *)
Definition dud (c : string) : string :=
  "<span class=" ++ quote ++ "dud" ++ quote ++ ">" ++ c ++ "</span>".

(** A template prints an absent value as [undefined]. *)
Definition print (c : option jschar) : string :=
  match c with
  | Some s => s
  | None => "undefined"
  end.

Section Program.

Context {num : Type} `{JSNumber num} `{JSFloor num}.
Local Open Scope js_scope.

(** The loop of [setText] from index [i], [count] entries:
    [start = Math.floor(Math.random() * 10);
     end = start + Math.floor(Math.random() * 10);] *)
Fixpoint plan (count i : nat) (oldText newText : list jschar) : Rand num (list Item) :=
  match count with
  | O => ret []
  | S count' =>
      r1 <- Math_random ;;
      r2 <- Math_random ;;
      let start := Math_floor (r1 * int 10) in
      let item := {| from := at_or_empty oldText i;
                     to := at_or_empty newText i;
                     start := start;
                     end_ := (start + Math_floor (r2 * int 10)%js)%Z;
                     char := None |} in
      rest <- plan count' (S i) oldText newText ;;
      ret (item :: rest)
  end.

(** [this.chars[Math.floor(Math.random() * this.chars.length)]] *)
Definition pick : Rand num (option jschar) :=
  r <- Math_random ;;
  let i := Math_floor (r * int 26) in
  ret (if (i <? 0)%Z then None else nth_error chars (Z.to_nat i)).

(** One entry in the loop of [update]: the text it adds to the output,
    whether it counts as complete, and the entry after it. *)
Definition show (frame : Z) (it : Item) : Rand num (string * bool * Item) :=
  if (end_ it <=? frame)%Z then ret (to it, true, it)
  else if (start it <=? frame)%Z then
    c <- match char it with
         | None => pick
         | Some _ =>
             r <- Math_random ;;
             if r <? lit 28 100 then pick else ret (char it)
         end ;;
    ret (dud (print c), false,
         {| from := from it; to := to it; start := start it; end_ := end_ it;
            char := c |})
  else ret (from it, false, it).

(** The loop of [update] over the queue: the output, the number of
    complete entries and the queue after it. *)
Fixpoint show_all (frame : Z) (q : list Item) : Rand num (string * nat * list Item) :=
  match q with
  | [] => ret (EmptyString, O, [])
  | it :: q' =>
      r <- show frame it ;;
      let '(text, done, it') := r in
      r' <- show_all frame q' ;;
      let '(output, complete, q'') := r' in
      ret ((text ++ output)%string, ((if done : bool then 1 else 0) + complete)%nat,
           it' :: q'')
  end.

(** [update()] *)
Definition update (s : Scrambler) : Rand num Scrambler :=
  r <- show_all (frame s) (queue s) ;;
  let '(output, complete, q) := r in
  if (complete =? List.length q)%nat then
    ret {| innerHTML := output; queue := q; frame := frame s;
           resolved := true; frameRequest := false |}
  else
    ret {| innerHTML := output; queue := q; frame := (frame s + 1)%Z;
           resolved := resolved s; frameRequest := true |}.

(** The animation frames that follow, while one is requested; [fuel]
    bounds the calls of [update]. *)
Fixpoint frames (fuel : nat) (s : Scrambler) : Rand num (option Scrambler) :=
  match fuel with
  | O => ret None
  | S fuel' =>
      s' <- update s ;;
      if frameRequest s' then frames fuel' s' else ret (Some s')
  end.

(** [setText(newText)] on an element that reads [oldText], up to its
    call of [update]: a new promise, the queue, [this.frame = 0].  (A
    frame requested by an earlier call is cancelled.) *)
Definition setText (oldText newText : list jschar) (s : Scrambler) : Rand num Scrambler :=
  q <- plan (Nat.max (List.length oldText) (List.length newText)) 0 oldText newText ;;
  ret {| innerHTML := innerHTML s; queue := q; frame := 0%Z;
         resolved := false; frameRequest := false |}.

(** [new TextScramble(el).setText(text)] run to the end of the
    animation. *)
Definition scramble (fuel : nat) (oldText newText : list jschar) (s : Scrambler)
  : Rand num (option Scrambler) :=
  s' <- setText oldText newText s ;;
  frames fuel s'.

(** The characters of a string of the script, joined. *)
Definition join (l : list jschar) : string :=
  fold_right (fun c out => (c ++ out)%string) EmptyString l.

(** The text a queue ends on. *)
Definition target_text (q : list Item) : string := join (map to q).

(** The last frame a queue waits for. *)
Definition deadline (q : list Item) : Z :=
  fold_right (fun it m => Z.max (end_ it) m) 0%Z q.

(** Two queues with the same texts and frames, whatever their [char]s. *)
Definition same_plan (q q' : list Item) : Prop :=
  Forall2 (fun a b => from a = from b /\ to a = to b
                      /\ start a = start b /\ end_ a = end_ b) q q'.

End Program.

End Scramble.

(** ** [initCursor]: the blob that follows the pointer *)

Module Cursor.

Section Program.

Context {num : Type} `{JSNumber num}.
Local Open Scope js_scope.

(** The closure: [mouseX], [mouseY], [cursorX], [cursorY], [isMoving],
    and the translations last written to the wrapper and to the blob
    ([None] before the first). *)
Record State : Type := mkState {
  mouseX : num;
  mouseY : num;
  cursorX : num;
  cursorY : num;
  isMoving : bool;
  wrapper : option (num * num);
  blob : option (num * num)
}.

(** [let mouseX = 0, mouseY = 0; let cursorX = 0, cursorY = 0;
     let isMoving = false;] *)
Definition start : State :=
  {| mouseX := int 0; mouseY := int 0; cursorX := int 0; cursorY := int 0;
     isMoving := false; wrapper := None; blob := None |}.

(** [initCursor()]: nothing on a device without hover and a fine
    pointer, nor when the wrapper or the blob is missing. *)
Definition initCursor (fine_pointer has_wrapper has_blob : bool) : option State :=
  if fine_pointer then
    if has_wrapper && has_blob then Some start else None
  else None.

(** The [mousemove] listener. *)
Definition mousemove (clientX clientY : num) (st : State) : State :=
  {| mouseX := clientX; mouseY := clientY;
     cursorX := cursorX st; cursorY := cursorY st;
     isMoving := true;
     wrapper := Some (clientX, clientY);
     blob := blob st |}.

(** [animateCursor()], one frame. *)
Definition animateCursor (st : State) : State :=
  if isMoving st then
    let dx := mouseX st - cursorX st in
    let dy := mouseY st - cursorY st in
    if (Math_abs dx >? lit 1 10) || (Math_abs dy >? lit 1 10) then
      let cx := cursorX st + dx * lit 15 100 in
      let cy := cursorY st + dy * lit 15 100 in
      {| mouseX := mouseX st; mouseY := mouseY st;
         cursorX := cx; cursorY := cy;
         isMoving := true;
         wrapper := wrapper st;
         blob := Some (cx - mouseX st, cy - mouseY st) |}
    else
      {| mouseX := mouseX st; mouseY := mouseY st;
         cursorX := cursorX st; cursorY := cursorY st;
         isMoving := false;
         wrapper := wrapper st;
         blob := blob st |}
  else
    if Math_abs (mouseX st - cursorX st) >? int 1 then
      {| mouseX := mouseX st; mouseY := mouseY st;
         cursorX := cursorX st; cursorY := cursorY st;
         isMoving := true;
         wrapper := wrapper st;
         blob := blob st |}
    else st.

(** What the host does. *)
Inductive Event : Type :=
| Move (clientX clientY : num)
| Frame.

Definition handle (st : State) (e : Event) : State :=
  match e with
  | Move x y => mousemove x y st
  | Frame => animateCursor st
  end.

Definition run (st : State) (evs : list Event) : State := fold_left handle evs st.

End Program.

End Cursor.

(** ** [init3DGlobe]: the particles and a frame of [draw]

    The trigonometric functions and division are a second interface;
    it is read at the real numbers only (binary64 has no primitive for
    them here). *)

Class JSMath (num : Type) : Type := {
  div : num -> num -> num;
  Math_cos : num -> num;
  Math_sin : num -> num;
  Math_acos : num -> num;
  Math_PI : num
}.

#[export] Instance ideal_math : JSMath R := {
  div := Rdiv;
  Math_cos := cos;
  Math_sin := sin;
  Math_acos := acos;
  Math_PI := PI
}.

Module GlobeFrame.

Import Globe.

Section Program.

Context {num : Type} `{JSNumber num} `{JSMath num}.
Local Open Scope js_scope.

(** The names [width], [height] and [ctx] are read in [init3DGlobe] but
    declared neither in it nor at the top level of the script (the only
    declarations of these names are local to [initNebulaBackground]).
    Reading one looks it up among the globals of the page and throws a
    [ReferenceError] when the page has none of that name.  A scope says
    what the page has: the numbers [width] and [height] and whether
    there is a drawing context [ctx]. *)
Record Scope : Type := mkScope {
  width : option num;
  height : option num;
  ctx : bool
}.


(** [const numParticles = 30;] *)
Definition numParticles : nat := 30.

(** The particle the loop of [init3DGlobe] pushes at index [i]:
    [theta = Math.acos(-1 + (2 * i) / numParticles);
     phi = Math.sqrt(numParticles * Math.PI) * theta;] *)
Definition particle (width : num) (i : nat) : Particle :=
  let radius := radius_of width in
  let theta :=
    Math_acos (int (-1) + div (int 2 * int (Z.of_nat i)) (int (Z.of_nat numParticles))) in
  let phi := Math_sqrt (int (Z.of_nat numParticles) * Math_PI) * theta in
  {| x := radius * Math_sin theta * Math_cos phi;
     y := radius * Math_sin theta * Math_sin phi;
     z := radius * Math_cos theta |}.

Definition particles (width : num) : list Particle :=
  map (particle width) (seq 0 numParticles).

(** [let angleX = 0.002; let angleY = 0.003;] *)
Definition angleX : num := lit 2 1000.
Definition angleY : num := lit 3 1000.

(** The rotation of one particle in [draw], about the vertical axis and
    then about the horizontal one. *)
Definition rotate (p : Particle) : Particle :=
  let cosY := Math_cos angleY in
  let sinY := Math_sin angleY in
  let x1 := x p * cosY - z p * sinY in
  let z1 := z p * cosY + x p * sinY in
  let y1 := y p in
  let cosX := Math_cos angleX in
  let sinX := Math_sin angleX in
  let yNew := y1 * cosX - z1 * sinX in
  let zNew := z1 * cosX + y1 * sinX in
  {| x := x1; y := yNew; z := zNew |}.

(** [scale = 300 / (300 + p.z); px = width/2 + p.x * scale;
     py = height/2 + p.y * scale;] *)
Definition project (width height : num) (p : Particle) : num * num :=
  let scale := div (int 300) (int 300 + z p) in
  (div width (int 2) + x p * scale, div height (int 2) + y p * scale).

(** What a frame adds to the path: a dot ([moveTo], [arc]) and, for a
    linked pair, a segment ([moveTo], [lineTo]). *)
Inductive Mark : Type :=
| Point (px py : num)
| Segment (px py p2x p2y : num).

(** The body of the outer loop of [draw] at index [i]; [radius] is the
    constant of the closure. *)
Definition turn (radius width height : num) (i : nat) (fr : list Particle * list Mark)
  : list Particle * list Mark :=
  let (ps, path) := fr in
  match nth_error ps i with
  | Some p0 =>
      let p := rotate p0 in
      let ps' := Nebula.set_nth i p ps in
      let (px, py) := project width height p in
      let segments :=
        flat_map (fun j =>
                    match nth_error ps' j with
                    | Some p2 => let (p2x, p2y) := project width height p2 in
                                 [Segment px py p2x p2y]
                    | None => []
                    end)
                 (neighbours (linked radius) ps' i p) in
      (ps', path ++ Point px py :: segments)
  | None => fr
  end.

(** How a call of [draw] ends. *)
Inductive Frame : Type :=
| Left                                              (* the canvas is not in the document *)
| Failed (name : string)                            (* ReferenceError: name is not defined *)
| Drawn (ps : list (@Particle num)) (path : list Mark).    (* and the next frame is requested *)

(** [draw()], one frame: nothing once the canvas has left the document
    ([if(!document.contains(canvas)) return;], and no further frame is
    requested); then [ctx.clearRect(0, 0, width, height)] reads [ctx],
    [width] and [height], in this order; then the loop. *)
Definition draw (sc : Scope) (attached : bool) (radius : num) (ps : list Particle)
  : Frame :=
  if negb attached then Left
  else if negb (ctx sc) then Failed "ctx"%string
  else match width sc with
       | None => Failed "width"%string
       | Some w =>
           match height sc with
           | None => Failed "height"%string
           | Some h =>
               let (ps', path) :=
                 for_range 0 (List.length ps) (turn radius w h) (ps, []) in
               Drawn ps' path
           end
       end.

(** How a call of [init3DGlobe] ends. *)
Inductive Outcome : Type :=
| Returned                                          (* no element #globe-canvas *)
| Threw (name : string)                             (* ReferenceError before any particle *)
| Started (radius : num) (particles : list (@Particle num)) (first : Frame).

(** [init3DGlobe()]: [canvas] says whether [#globe-canvas] exists,
    [attached] whether it is in the document when [draw] runs.
    [canvas.width = width; canvas.height = height;] read the two numbers
    before anything is built. *)
Definition init3DGlobe (sc : Scope) (canvas attached : bool) : Outcome :=
  if negb canvas then Returned
  else match width sc with
       | None => Threw "width"%string
       | Some w =>
           match height sc with
           | None => Threw "height"%string
           | Some h =>
               let radius := radius_of w in
               Started radius (particles w) (draw sc attached radius (particles w))
           end
       end.

(** The particles after [n] frames on an attached canvas, while frames
    are drawn. *)
Fixpoint spin (n : nat) (sc : Scope) (radius : num) (ps : list Particle)
  : list Particle :=
  match n with
  | O => ps
  | S n' =>
      match draw sc true radius ps with
      | Drawn ps' _ => spin n' sc radius ps'
      | _ => ps
      end
  end.

End Program.

End GlobeFrame.

(** ** Words for the results over the real numbers *)

Module CursorWords.

Import Cursor.
Local Open Scope R_scope.

(** The distance left to the pointer on each axis is at most a tenth. *)
Definition near (st : @State R) : Prop :=
  Rabs (mouseX st - cursorX st) <= 0.1 /\ Rabs (mouseY st - cursorY st) <= 0.1.

(** The loop is idle only when the blob is near the pointer. *)
Definition rested (st : @State R) : Prop := isMoving st = false -> near st.

End CursorWords.

Module GlobeWords.

Import Globe.
Local Open Scope R_scope.

(** The particle is at distance [r] from the centre. *)
Definition on_sphere (r : R) (p : @Particle R) : Prop :=
  x p * x p + y p * y p + z p * z p = r * r.

End GlobeWords.

Module NebulaWords.

Import Nebula.

(** The dots of a frame: index and node, in the order drawn. *)
Definition dots {num : Type} (log : list (@Event num)) : list (nat * @Node num) :=
  flat_map (fun e => match e with Dot i p => [(i, p)] | _ => [] end) log.

(** The node carries the size, speeds and opacity that [reset] computes
    from the calls of [Math.random] numbered [k + 2] to [k + 5], for six
    calls [k .. k + 5] made between the cursors [lo] and [hi]. *)
Definition made_by {num : Type} `{JSNumber num} (source : nat -> num) (lo hi : nat)
    (p : @Node num) : Prop :=
  exists k, lo <= k /\ k + 6 <= hi
    /\ size p = (source (k + 2)%nat * int 2 + int 1)%js
    /\ speedX p = ((source (k + 3)%nat - lit 5 10) * lit 8 10)%js
    /\ speedY p = ((source (k + 4)%nat - lit 5 10) * lit 8 10)%js
    /\ opacity p = (source (k + 5)%nat * lit 5 10 + lit 2 10)%js.

End NebulaWords.

(** ** [initBootOrPageLoad] and [runBootSequence]

    What a call does is a list of actions in program order; [setTimeout]
    is one of them and carries the actions of its callback and its
    delay.  The three elements looked up are present or not.

    The host runs the timers: the one due first, and of two due at the
    same time the one set first.  Time is counted in milliseconds from
    the call; running a callback takes none, and a delay is taken as the
    number it is (a browser cuts it to whole milliseconds, which keeps
    the order of the delays of this script). *)

Module Boot.

Local Open Scope string_scope.

Section Generic.

Context {num : Type} `{JSNumber num}.

Record Page := {
  bootScreen : bool;      (* getElementById('boot-screen') *)
  bootLog : bool;         (* getElementById('boot-log') *)
  bootProgress : bool     (* querySelector('.boot-progress') *)
}.

Local Unset Elimination Schemes.

Inductive Action :=
| AddLoaded                                   (* body.classList.add('loaded') *)
| Append (textContent : string) (percent : num) (* a line of the log, the bar's width *)
| Fade                                        (* screen.style.opacity = '0' *)
| Remove                                      (* screen.remove() *)
| StartPageAnimations
| Init3DGlobe
| SetTimeout (callback : list Action) (delay : num).

Local Set Elimination Schemes.

Definition bootMessages : list string :=
  ["BIOS...OK"; "Kernel...Loaded"; "GPU...Init";
   "Net...Connected"; "User...Auth"; "System...Ready"].

Definition totalTime : num := int 2500.

(** [totalTime / bootMessages.length] *)
Definition interval : num := lit 2500 6.

(** [bootMessages.forEach((msg, index) => ...)], with [delay] threaded. *)
Fixpoint each (msgs : list string) (index : nat) (delay : num) : list Action :=
  match msgs with
  | [] => []
  | msg :: rest =>
      SetTimeout
        [Append ("> " ++ msg) (lit (Z.of_nat (index + 1)) 6 * int 100)%js] delay
      :: each rest (S index) (delay + interval)%js
  end.

Definition runBootSequence (pg : Page) : list Action :=
  if negb (bootLog pg) || negb (bootProgress pg) then []
  else
    each bootMessages 0 (int 0)
    ++ [SetTimeout
          [Fade; SetTimeout [Remove; StartPageAnimations; Init3DGlobe] (int 500)]
          (totalTime + int 100)%js].

Definition initBootOrPageLoad (pg : Page) : list Action :=
  SetTimeout [AddLoaded] (int 100)
  :: (if bootScreen pg then runBootSequence pg else [StartPageAnimations]).

(** A timer that is waiting. *)
Record Pending : Type := mkPending {
  due : num;
  callback : list Action
}.

(** Running the actions [acts] at time [now]: what is done, with its
    time, and the timers set, in the order set. *)
Fixpoint perform (now : num) (acts : list Action)
  : list (num * Action) * list Pending :=
  match acts with
  | [] => ([], [])
  | SetTimeout cb delay :: rest =>
      let (done, set) := perform now rest in
      (done, {| due := (now + delay)%js; callback := cb |} :: set)
  | a :: rest =>
      let (done, set) := perform now rest in
      ((now, a) :: done, set)
  end.

(** The timer the host runs next, and those that stay. *)
Fixpoint next (waiting : list Pending) : option (Pending * list Pending) :=
  match waiting with
  | [] => None
  | p :: rest =>
      match next rest with
      | Some (q, rest') =>
          if (due q <? due p)%js then Some (q, p :: rest') else Some (p, rest)
      | None => Some (p, [])
      end
  end.

(** The host's loop; [fuel] bounds the timers it runs. *)
Fixpoint loop (fuel : nat) (waiting : list Pending) : list (num * Action) :=
  match fuel with
  | O => []
  | S fuel' =>
      match next waiting with
      | Some (p, rest) =>
          let (done, set) := perform (due p) (callback p) in
          done ++ loop fuel' (rest ++ set)
      | None => []
      end
  end.

(** The timers a list of actions sets, those of their callbacks
    included. *)
Fixpoint timers_of (a : Action) : nat :=
  match a with
  | SetTimeout cb _ => S (list_sum (map timers_of cb))
  | _ => 0
  end.

(** Everything a call at time 0 leads to, in the order it happens, each
    with its time. *)
Definition timeline (acts : list Action) : list (num * Action) :=
  let (done, set) := perform (int 0) acts in
  done ++ loop (list_sum (map timers_of acts)) set.

End Generic.

End Boot.

(** ** [initScrollReveal]

    Elements are numbers.  The observer's state is the elements it
    observes; the timers set are kept in the order set, each with its
    delay in milliseconds and the element it will mark visible. *)

Module Reveal.

Record Entry := { target : nat; isIntersecting : bool }.

Record State := {
  marked : list nat;           (* elements given the class reveal-on-scroll *)
  observed : list nat;
  timers : list (nat * nat)    (* delay, element *)
}.

Definition mem (el : nat) (l : list nat) : bool := existsb (Nat.eqb el) l.

(** [observer.observe(el)]: no effect on an element already observed. *)
Definition observe (el : nat) (l : list nat) : list nat :=
  if mem el l then l else l ++ [el].

(** [observer.unobserve(el)] *)
Definition unobserve (el : nat) (l : list nat) : list nat :=
  filter (fun e => negb (Nat.eqb el e)) l.

(** The callback's [entries.forEach], with [staggerDelay] threaded. *)
Fixpoint each (entries : list Entry) (staggerDelay : nat) (st : State) : State :=
  match entries with
  | [] => st
  | entry :: rest =>
      if isIntersecting entry then
        each rest (S staggerDelay)
          {| marked := marked st;
             observed := unobserve (target entry) (observed st);
             timers := timers st ++ [(staggerDelay * 100, target entry)] |}
      else each rest staggerDelay st
  end.

Definition callback (entries : list Entry) (st : State) : State := each entries 0 st.

(** [targets.forEach(el => ...)] on the elements the selector finds. *)
Definition initScrollReveal (targets : list nat) : State :=
  fold_left
    (fun st el => {| marked := observe el (marked st);
                     observed := observe el (observed st);
                     timers := timers st |})
    targets
    {| marked := []; observed := []; timers := [] |}.

Definition run (targets : list nat) (batches : list (list Entry)) : State :=
  fold_left (fun st entries => callback entries st) batches (initScrollReveal targets).

(** What the browser does: a batch reports elements that are observed
    when it is delivered, each once. *)
Fixpoint delivered (st : State) (batches : list (list Entry)) : Prop :=
  match batches with
  | [] => True
  | entries :: rest =>
      NoDup (map target entries)
      /\ incl (map target entries) (observed st)
      /\ delivered (callback entries st) rest
  end.

(** The elements of the intersecting entries of a batch. *)
Definition shown (entries : list Entry) : list nat :=
  map target (filter isIntersecting entries).

End Reveal.

(** ** [initVoxelModel] *)

Module Voxel.

Import Ascii.
Local Open Scope string_scope.

Section Generic.

Context {num : Type} `{JSNumber num}.

Record Face := {
  face_className : string;
  face_backgroundColor : string;
  boxShadow : option string
}.

Record Voxel := {
  classList : list string;
  backgroundColor : string;
  xPos : num;
  yPos : num;
  faces : list Face
}.

Record Label := {
  innerHTML : string;
  className : string;
  position : string;
  bottom : string;
  width : string;
  textAlign : string;
  color : string
}.

Definition map : list string :=
  ["00100000100";
   "00010001000";
   "00111111100";
   "01101110110";
   "11111111111";
   "10111111101";
   "10100000101";
   "00011011000"].

Definition size : num := int 30.

Definition isEye (x y : nat) : bool :=
  Nat.eqb y 3 && (Nat.eqb x 3 || Nat.eqb x 7).

Definition voxel (x y : nat) : Voxel :=
  let color := if isEye x y then "#fff" else "var(--highlight-color)" in
  {| classList := if isEye x y then ["voxel"; "glow-eye"] else ["voxel"];
     backgroundColor := color;
     (* cols/2 = 5.5, rows/2 = 4 *)
     xPos := ((int (Z.of_nat x) - lit 11 2) * size)%js;
     yPos := ((int (Z.of_nat y) - lit 8 2) * size)%js;
     faces :=
       List.map
         (fun c => {| face_className := c;
                      face_backgroundColor := color;
                      boxShadow := if isEye x y then Some "0 0 5px #fff" else None |})
         ["v-front"; "v-right"; "v-left"; "v-top"; "v-bottom"] |}.

(** [for(let x=0; x<rowStr.length; x++)], from column [x] on. *)
Fixpoint row (y x : nat) (rowStr : string) : list Voxel :=
  match rowStr with
  | EmptyString => []
  | String char rest =>
      (if Ascii.eqb char "0" then [] else [voxel x y]) ++ row y (S x) rest
  end.

(** [map.forEach((rowStr, y) => ...)], from row [y] on. *)
Fixpoint rows (y : nat) (m : list string) : list Voxel :=
  match m with
  | [] => []
  | rowStr :: rest => row y 0 rowStr ++ rows (S y) rest
  end.

Definition label : Label :=
  {| innerHTML := "[ SYSTEM_GUARDIAN ]";
     className := "animate-item";
     position := "absolute";
     bottom := "-60px";
     width := "100%";
     textAlign := "center";
     color := "var(--highlight-color)" |}.

(** The children of the container after the call: the group of voxels
    and the label; nothing is done without the container. *)
Definition initVoxelModel (container : bool) : option (list Voxel * Label) :=
  if container then Some (rows 0 map, label) else None.

(** The cells of a map that are not ['0']. *)
Fixpoint cells (m : list string) : nat :=
  match m with
  | [] => 0
  | rowStr :: rest =>
      List.length (filter (fun c => negb (Ascii.eqb c "0")) (list_ascii_of_string rowStr))
      + cells rest
  end.

End Generic.

End Voxel.
(** * Results *)

(** ** Loops and lists *)



Lemma set_nth_app {A : Type} (pre : list A) (a b : A) (post : list A) :
  Nebula.set_nth (List.length pre) a (pre ++ b :: post) = pre ++ a :: post.
Proof.
  induction pre as [|c pre IH]; simpl; [reflexivity|].
  now rewrite IH.
Qed.

Lemma set_nth_length {A : Type} (a : A) :
  forall l i, List.length (Nebula.set_nth i a l) = List.length l.
Proof.
  induction l as [|b l IH]; intros [|i]; simpl; auto.
Qed.

Lemma nth_error_middle {A : Type} (pre : list A) (a : A) (post : list A) :
  nth_error (pre ++ a :: post) (List.length pre) = Some a.
Proof.
  induction pre as [|c pre IH]; simpl; [reflexivity|apply IH].
Qed.

Lemma app_cons_snoc {A : Type} (pre : list A) (a : A) (post : list A) :
  pre ++ a :: post = (pre ++ [a]) ++ post.
Proof. now rewrite <- app_assoc. Qed.

Lemma length_snoc {A : Type} (pre : list A) (a : A) :
  List.length (pre ++ [a]) = S (List.length pre).
Proof. rewrite length_app; simpl; lia. Qed.

(** ** The nebula background: the shape of a frame *)

Section NebulaFrame.

Context {num : Type} `{JSNumber num}.
Import Nebula.

Variable source : nat -> num.

(** The six draws of [reset]. *)
Lemma reset_fresh (w h : num) (k : nat) :
  reset w h source k = (fresh source w h k, (k + 6)%nat).
Proof.
  unfold reset, fresh, bind, Math_random, ret; simpl.
  repeat f_equal; lia.
Qed.

Lemma update_cases (w h : num) (p : Node) (k : nat) :
  update w h p source k =
    if outside w h (advance p) then (fresh source w h k, (k + 6)%nat)
    else (advance p, k).
Proof.
  unfold update. destruct (outside w h (advance p)).
  - apply reset_fresh.
  - reflexivity.
Qed.

(** In every number model a node that [update] returns either passes the
    test of the code or has just been built by [reset]. *)
Lemma update_settles (w h : num) (p : Node) (k : nat) :
  (outside w h (advance p) = false /\ update w h p source k = (advance p, k))
  \/ (outside w h (advance p) = true
      /\ update w h p source k = (fresh source w h k, (k + 6)%nat)).
Proof.
  rewrite update_cases. destruct (outside w h (advance p)); auto.
Qed.

(** The inner loop adds one comparison per later element and leaves the
    closure alone. *)
Lemma inner_loop (i : nat) (p1 : Node) :
  forall rest pre st log,
    nodes st = pre ++ rest ->
    for_from (List.length rest) (List.length pre) (connect i p1) (st, log)
    = (st, log ++ pair_events i p1 (List.length pre) rest).
Proof.
  induction rest as [|p2 rest IH]; intros pre st log E; simpl.
  - now rewrite app_nil_r.
  - rewrite E, nth_error_middle.
    rewrite app_cons_snoc in E.
    pose proof (IH (pre ++ [p2]) st
                  (log ++ [Pair i (List.length pre) p1 p2
                             (ltb (dist p1 p2) (int 150))]) E) as IH'.
    rewrite length_snoc in IH'. rewrite IH'.
    now rewrite <- app_assoc.
Qed.

(** The outer loop is [sweep] over what is left of the array. *)
Lemma outer_loop :
  forall todo pre st log,
    nodes st = pre ++ todo ->
    for_from (List.length todo) (List.length pre) (visit source) (st, log)
    = let '(todo', k, evs) :=
        sweep source (width st) (height st) (List.length pre) todo (cursor st) in
      (put st (pre ++ todo') k, log ++ evs).
Proof.
  induction todo as [|p rest IH]; intros pre st log E.
  - simpl. rewrite app_nil_r. rewrite app_nil_r in E.
    destruct st; simpl in *; subst; unfold put; simpl.
    now rewrite app_nil_r.
  - cbn [List.length for_from sweep].
    unfold visit at 2. rewrite E, nth_error_middle.
    destruct (update (width st) (height st) p source (cursor st)) as [p1 k1] eqn:U.
    rewrite set_nth_app.
    unfold for_range.
    replace (List.length (nodes (put st (pre ++ p1 :: rest) k1)) - (List.length pre + 1))%nat
      with (List.length rest)
      by (simpl; rewrite length_app; simpl; lia).
    replace (List.length pre + 1)%nat with (List.length (pre ++ [p1]))
      by (rewrite length_snoc; lia).
    rewrite (inner_loop (List.length pre) p1 rest (pre ++ [p1])
               (put st (pre ++ p1 :: rest) k1) (log ++ [Dot (List.length pre) p1]))
      by (simpl; apply app_cons_snoc).
    rewrite length_snoc.
    pose proof (IH (pre ++ [p1]) (put st (pre ++ p1 :: rest) k1)
                  ((log ++ [Dot (List.length pre) p1])
                     ++ pair_events (List.length pre) p1 (S (List.length pre)) rest)
                  (app_cons_snoc pre p1 rest)) as IH'.
    rewrite length_snoc in IH'. rewrite IH'. simpl.
    destruct (sweep source (width st) (height st) (S (List.length pre)) rest k1)
      as [[rest' k2] evs].
    unfold put; simpl. f_equal.
    + now rewrite <- app_assoc.
    + rewrite <- !app_assoc. reflexivity.
Qed.

(** A frame is one [sweep] of the array. *)
Lemma animate_sweep (st : State) :
  animate source st
  = let '(ns, k, evs) :=
      sweep source (width st) (height st) 0 (nodes st) (cursor st) in
    (put st ns k, Clear (width st) (height st) :: evs).
Proof.
  unfold animate, for_range. rewrite Nat.sub_0_r.
  apply (outer_loop (nodes st) [] st [Clear (width st) (height st)] eq_refl).
Qed.

Lemma sweep_length (w h : num) :
  forall todo i k,
    List.length (fst (fst (sweep source w h i todo k))) = List.length todo.
Proof.
  induction todo as [|p rest IH]; intros i k; simpl; [reflexivity|].
  destruct (update w h p source k) as [p1 k1].
  specialize (IH (S i) k1).
  destruct (sweep source w h (S i) rest k1) as [[rest' k2] evs]; simpl in *.
  now rewrite IH.
Qed.

(** Every element a sweep leaves behind came out of [update]. *)
Lemma sweep_Forall (P : Node -> Prop) (w h : num) :
  (forall p k, P (fst (update w h p source k))) ->
  forall todo i k, Forall P (fst (fst (sweep source w h i todo k))).
Proof.
  intros HP; induction todo as [|p rest IH]; intros i k; simpl; [constructor|].
  pose proof (HP p k) as Hp.
  destruct (update w h p source k) as [p1 k1].
  specialize (IH (S i) k1).
  destruct (sweep source w h (S i) rest k1) as [[rest' k2] evs]; simpl in *.
  now constructor.
Qed.


Lemma examined_app (a b : list (@Event num)) :
  examined (a ++ b) = examined a ++ examined b.
Proof. apply flat_map_app. Qed.

Lemma examined_pair_events (i : nat) (p1 : Node) :
  forall rest j,
    examined (pair_events i p1 j rest) = map (pair i) (seq j (List.length rest)).
Proof.
  induction rest as [|p2 rest IH]; intros j; simpl; [reflexivity|].
  f_equal. apply IH.
Qed.

Lemma examined_sweep (w h : num) :
  forall todo i k,
    examined (snd (sweep source w h i todo k)) = all_pairs i (List.length todo).
Proof.
  induction todo as [|p rest IH]; intros i k; simpl; [reflexivity|].
  destruct (update w h p source k) as [p1 k1].
  specialize (IH (S i) k1).
  destruct (sweep source w h (S i) rest k1) as [[rest' k2] evs]; simpl in *.
  change (examined (Dot i p1 :: pair_events i p1 (S i) rest ++ evs))
    with (examined (pair_events i p1 (S i) rest ++ evs)).
  now rewrite examined_app, examined_pair_events, IH.
Qed.

Lemma In_pair_events (i : nat) (p1 : Node) (a b : nat) (q1 q2 : Node) (l : bool) :
  forall rest j,
    In (Pair a b q1 q2 l) (pair_events i p1 j rest) <->
    a = i /\ q1 = p1 /\ j <= b /\ nth_error rest (b - j) = Some q2
    /\ l = ltb (dist q1 q2) (int 150).
Proof.
  induction rest as [|p2 rest IH]; intros j; simpl.
  - split; [tauto|]. intros (_ & _ & _ & E & _).
    destruct (b - j); discriminate.
  - rewrite IH. split.
    + intros [E | (-> & -> & Hj & E & ->)].
      * injection E as <- <- <- <- <-. rewrite Nat.sub_diag. simpl. repeat split; auto.
      * repeat split; auto; [lia|].
        replace (b - j) with (S (b - S j)) by lia. exact E.
    + intros (-> & -> & Hj & E & ->).
      destruct (Nat.eq_dec b j) as [->|Hne].
      * rewrite Nat.sub_diag in E. simpl in E. injection E as ->. now left.
      * right. repeat split; auto; [lia|].
        replace (b - j) with (S (b - S j)) in E by lia. exact E.
Qed.

(** The comparisons of a sweep: the earlier element as the sweep left it,
    the later one as the sweep found it. *)
Lemma In_sweep (w h : num) (a b : nat) (q1 q2 : Node) (l : bool) :
  forall todo i k,
    In (Pair a b q1 q2 l) (snd (sweep source w h i todo k)) <->
    i <= a /\ a < b
    /\ nth_error (fst (fst (sweep source w h i todo k))) (a - i) = Some q1
    /\ nth_error todo (b - i) = Some q2
    /\ l = ltb (dist q1 q2) (int 150).
Proof.
  induction todo as [|p rest IH]; intros i k; simpl.
  - split; [tauto|]. intros (_ & _ & E & _). destruct (a - i); discriminate.
  - destruct (update w h p source k) as [p1 k1].
    specialize (IH (S i) k1).
    destruct (sweep source w h (S i) rest k1) as [[rest' k2] evs]; simpl in *.
    rewrite in_app_iff, In_pair_events, IH. split.
    + intros [E | [(-> & -> & Hj & E & ->) | (Hi & Hab & E1 & E2 & ->)]];
        [discriminate| |].
      * rewrite Nat.sub_diag. simpl. repeat split; auto.
        replace (b - i) with (S (b - S i)) by lia. exact E.
      * repeat split; auto; [lia| |].
        -- replace (a - i) with (S (a - S i)) by lia. exact E1.
        -- replace (b - i) with (S (b - S i)) by lia. exact E2.
    + intros (Hi & Hab & E1 & E2 & ->). right.
      destruct (Nat.eq_dec a i) as [->|Hne].
      * left. rewrite Nat.sub_diag in E1. simpl in E1. injection E1 as ->.
        replace (b - i) with (S (b - S i)) in E2 by lia.
        repeat split; auto.
      * right.
        replace (a - i) with (S (a - S i)) in E1 by lia.
        replace (b - i) with (S (b - S i)) in E2 by lia.
        repeat split; auto; lia.
Qed.

(** The comparisons of a frame. *)
Lemma In_animate (st : State) (i j : nat) (p1 p2 : Node) (l : bool) :
  In (Pair i j p1 p2 l) (snd (animate source st)) <->
  i < j
  /\ nth_error (nodes (tick source st)) i = Some p1
  /\ nth_error (nodes st) j = Some p2
  /\ l = ltb (dist p1 p2) (int 150).
Proof.
  unfold tick. rewrite animate_sweep.
  pose proof (In_sweep (width st) (height st) i j p1 p2 l (nodes st) 0 (cursor st)) as S.
  destruct (sweep source (width st) (height st) 0 (nodes st) (cursor st))
    as [[ns k] evs]; simpl in *.
  rewrite !Nat.sub_0_r in S. rewrite <- (and_assoc (0 <= i)) in S.
  split.
  - intros [E | E]; [discriminate|]. apply S in E. tauto.
  - intros E. right. apply S. repeat split; try tauto; lia.
Qed.

(** A comparison with a line is on the canvas as a stroked segment. *)
Lemma line_on_canvas (log : list (@Event num)) (i j : nat) (p1 p2 : Node) :
  In (Pair i j p1 p2 true) log ->
  incl [beginPath; moveTo (x p1) (y p1); lineTo (x p2) (y p2); stroke]
       (flat_map canvas log).
Proof.
  intros Hin op Hop. apply in_flat_map.
  exists (Pair i j p1 p2 true). split; [exact Hin|exact Hop].
Qed.

Lemma animate_length (st : State) :
  List.length (nodes (tick source st)) = List.length (nodes st).
Proof.
  unfold tick. rewrite animate_sweep.
  pose proof (sweep_length (width st) (height st) (nodes st) 0 (cursor st)) as L.
  destruct (sweep source (width st) (height st) 0 (nodes st) (cursor st))
    as [[ns k] evs]; simpl in *. exact L.
Qed.


Lemma animate_dims (st : State) :
  width (tick source st) = width st /\ height (tick source st) = height st.
Proof.
  unfold tick. rewrite animate_sweep.
  destruct (sweep source (width st) (height st) 0 (nodes st) (cursor st))
    as [[ns k] evs]; simpl. auto.
Qed.

End NebulaFrame.

Lemma In_all_pairs (a b : nat) :
  forall n i, In (a, b) (Nebula.all_pairs i n) <-> i <= a /\ a < b /\ b < i + n.
Proof.
  induction n as [|n IH]; intros i; simpl.
  - split; [tauto|lia].
  - rewrite in_app_iff, in_map_iff, IH. split.
    + intros [(c & E & Hc) | ?]; [|lia].
      injection E as <- <-. apply in_seq in Hc. lia.
    + intros (Hi & Hab & Hb).
      destruct (Nat.eq_dec a i) as [->|Hne]; [left|right; lia].
      exists b. split; [reflexivity|]. apply in_seq. lia.
Qed.

Lemma NoDup_map_pair (i : nat) (l : list nat) :
  NoDup l -> NoDup (map (pair i) l).
Proof.
  induction 1 as [|c l Hc N IH]; simpl; constructor; auto.
  intros Hin. apply in_map_iff in Hin as (d & E & Hd).
  injection E as <-. contradiction.
Qed.

Lemma NoDup_all_pairs :
  forall n i, NoDup (Nebula.all_pairs i n).
Proof.
  induction n as [|n IH]; intros i; simpl; [constructor|].
  apply NoDup_app; [| apply IH |].
  - apply NoDup_map_pair, seq_NoDup.
  - intros [a b] Hin Hin'. apply in_map_iff in Hin as (c & E & _).
    injection E as <- <-. apply In_all_pairs in Hin'. lia.
Qed.

Lemma lines_incl {num : Type} (log : list (@Nebula.Event num)) :
  incl (Nebula.lines log) (Nebula.examined log).
Proof.
  induction log as [|e log IH]; simpl; [apply incl_refl|].
  destruct e as [w h|i p|i j p1 p2 [|]]; simpl; auto.
  - apply incl_cons; [now left|]. now apply incl_tl.
  - now apply incl_tl.
Qed.

Lemma lines_NoDup {num : Type} (log : list (@Nebula.Event num)) :
  NoDup (Nebula.examined log) -> NoDup (Nebula.lines log).
Proof.
  induction log as [|e log IH]; simpl; [auto|].
  destruct e as [w h|i p|i j p1 p2 [|]]; simpl; auto.
  - intros N. inversion N as [|? ? Hn N']; subst. constructor; auto.
    intros Hin. apply Hn. now apply lines_incl.
  - intros N. inversion N; auto.
Qed.

(** ** The nebula background: construction, resizing, runs *)

Section NebulaField.

Context {num : Type} `{JSNumber num}.
Import Nebula.

Lemma Array_from_reset (source : nat -> num) (w h : num) :
  forall n k,
    Array_from n (reset w h) source k
    = (map (fun i => fresh source w h (k + 6 * i)) (seq 0 n), (k + 6 * n)%nat).
Proof.
  induction n as [|n IH]; intros k.
  - simpl. unfold ret. f_equal. lia.
  - cbn [Array_from]. unfold bind at 1. rewrite reset_fresh.
    unfold bind at 1. rewrite IH. unfold ret.
    cbn [seq map]. rewrite <- seq_shift, map_map. f_equal.
    + f_equal.
      * f_equal. lia.
      * apply map_ext. intros i. f_equal. lia.
    + lia.
Qed.

Lemma construct_nodes (source : nat -> num) (seed : nat) (win : Window) :
  nodes (construct source seed win)
  = map (fun i => fresh source (innerWidth win) (innerHeight win) (seed + 6 * i))
        (seq 0 (nodeCount win)).
Proof.
  unfold construct. cbn [resize blank width height cursor].
  now rewrite Array_from_reset.
Qed.

(** *** What a run reads of [Math.random]

    A computation reads the values of the calls it makes and no other:
    those numbered from its cursor up to the cursor it ends with. *)


Lemma update_cursor_le (s : nat -> num) (w h : num) (p : Node) (k : nat) :
  k <= snd (update w h p s k).
Proof. rewrite update_cases. destruct (outside w h (advance p)); simpl; lia. Qed.


Lemma sweep_cursor_le (s : nat -> num) (w h : num) :
  forall todo i k, k <= snd (fst (sweep s w h i todo k)).
Proof.
  induction todo as [|p rest IH]; intros i k; simpl; [lia|].
  pose proof (update_cursor_le s w h p k) as L.
  destruct (update w h p s k) as [p1 k1]. simpl in L.
  specialize (IH (S i) k1).
  destruct (sweep s w h (S i) rest k1) as [[rest' k2] evs]. simpl in *. lia.
Qed.


Lemma tick_cursor_le (s : nat -> num) (st : State) : cursor st <= cursor (tick s st).
Proof.
  unfold tick. rewrite animate_sweep.
  pose proof (sweep_cursor_le s (width st) (height st) (nodes st) 0 (cursor st)) as L.
  destruct (sweep s (width st) (height st) 0 (nodes st) (cursor st)) as [[ns k] evs].
  exact L.
Qed.


Lemma step_cursor_le (s : nat -> num) (st : State) (c : Call) :
  cursor st <= cursor (step s st c).
Proof. destruct c; simpl; [apply tick_cursor_le|lia]. Qed.




Lemma construct_cursor (s : nat -> num) (seed : nat) (win : Window) :
  cursor (construct s seed win) = seed + 6 * nodeCount win.
Proof.
  unfold construct. cbn [resize blank width height cursor].
  now rewrite Array_from_reset.
Qed.


(** C3.  In a frame the inner loop compares each pair of indices [i < j]
    below the number of nodes exactly once, in row order, and no other
    pair; so no pair is joined by a line more than once. *)
Theorem animate_pairs_once (source : nat -> num) (st : State) :
  let log := snd (animate source st) in
  let n := List.length (nodes st) in
  examined log = all_pairs 0 n
  /\ NoDup (examined log)
  /\ (forall i j, In (i, j) (examined log) <-> i < j < n)
  /\ NoDup (lines log)
  /\ incl (lines log) (examined log).
Proof.
  intros log n.
  assert (E : examined log = all_pairs 0 n).
  { subst log n. rewrite animate_sweep.
    pose proof (examined_sweep source (width st) (height st) (nodes st) 0 (cursor st)) as S.
    destruct (sweep source (width st) (height st) 0 (nodes st) (cursor st))
      as [[ns k] evs]; simpl in *. exact S. }
  assert (N : NoDup (examined log)) by (rewrite E; apply NoDup_all_pairs).
  split; [exact E|]. split; [exact N|]. split; [|split].
  - intros i j. rewrite E, In_all_pairs. lia.
  - now apply lines_NoDup.
  - apply lines_incl.
Qed.

(** C4.  With the canvas present [initNebulaBackground] returns a field,
    and the field holds [nodeCount] nodes, both as constructed and after
    the first frame: 30 when [window.innerWidth < 800], otherwise 60. *)
Theorem initialize_count (source : nat -> num) (seed : nat) (win : Window) :
  exists st log,
    initNebulaBackground true source seed win = Some (st, log)
    /\ List.length (nodes (construct source seed win)) = nodeCount win
    /\ List.length (nodes st) = nodeCount win
    /\ nodeCount win = (if ltb (innerWidth win) (int 800) then 30 else 60).
Proof.
  assert (L : List.length (nodes (construct source seed win)) = nodeCount win).
  { rewrite construct_nodes, length_map. apply length_seq. }
  exists (tick source (construct source seed win)),
         (snd (animate source (construct source seed win))).
  repeat split.
  - unfold initNebulaBackground, tick. now rewrite <- surjective_pairing.
  - exact L.
  - now rewrite animate_length.
Qed.

(** C6.  [resize] writes the dimensions of the window into [width] and
    [height] (and into the canvas element) and leaves the array of nodes,
    hence every node's position, speed, size and opacity, and the random
    cursor as they were.  Run before the array exists, as
    [initNebulaBackground] does, it is observed by the construction: every
    node is drawn for the new dimensions. *)
Theorem resize_frame (source : nat -> num) (seed : nat) (win : Window) (st : State) :
  (nodes (resize win st) = nodes st
   /\ cursor (resize win st) = cursor st
   /\ width (resize win st) = innerWidth win
   /\ height (resize win st) = innerHeight win
   /\ canvas_width (resize win st) = innerWidth win
   /\ canvas_height (resize win st) = innerHeight win)
  /\ (nodes (resize win (blank seed)) = []
      /\ width (construct source seed win) = innerWidth win
      /\ height (construct source seed win) = innerHeight win
      /\ nodes (construct source seed win)
         = map (fun i => fresh source (innerWidth win) (innerHeight win) (seed + 6 * i))
               (seq 0 (nodeCount win))).
Proof.
  split; [repeat split|].
  repeat split.
  - unfold construct.
    destruct (Array_from _ _ _ _); reflexivity.
  - unfold construct.
    destruct (Array_from _ _ _ _); reflexivity.
  - apply construct_nodes.
Qed.



End NebulaField.

(** ** Real arithmetic *)

Lemma Rltb_true (a b : R) : (a < b)%R -> Rltb a b = true.
Proof. intros L. unfold Rltb. destruct (Rlt_dec a b); [reflexivity|contradiction]. Qed.

Lemma Rltb_false (a b : R) : (b <= a)%R -> Rltb a b = false.
Proof. intros L. unfold Rltb. destruct (Rlt_dec a b); [lra|reflexivity]. Qed.

Lemma Rltb_iff (a b : R) : Rltb a b = true <-> (a < b)%R.
Proof.
  unfold Rltb. destruct (Rlt_dec a b); split; auto; discriminate.
Qed.

Lemma sqrt_lt_iff (a b : R) :
  (0 <= a)%R -> (0 <= b)%R -> (sqrt a < sqrt b <-> a < b)%R.
Proof.
  intros Ha Hb. split.
  - apply sqrt_lt_0_alt.
  - intros L. apply sqrt_lt_1_alt. lra.
Qed.

Lemma sqrt_lt_const (a t : R) :
  (0 <= a)%R -> (0 <= t)%R -> (sqrt a < t <-> a < t * t)%R.
Proof.
  intros Ha Ht. rewrite <- (sqrt_square t Ht) at 1.
  apply sqrt_lt_iff; [exact Ha|]. nra.
Qed.

(** ** The nebula background over the real numbers *)

Section NebulaIdeal.

Import Nebula Surface.
Local Open Scope R_scope.

(** Closes a goal about concrete real coordinates. *)
Ltac coordinates := unfold on_surface, in_surface, euclid, int; simpl; try lra.

(** [outside] is the complement of the region with its edges. *)
Lemma outside_false (w h : R) (p : @Node R) :
  outside w h p = false <-> on_surface w h p.
Proof.
  unfold outside, on_surface, int; simpl.
  rewrite !orb_false_iff. unfold Rltb.
  repeat destruct (Rlt_dec _ _); split; intros; try lra;
    repeat split; try reflexivity; try discriminate; try lra; tauto.
Qed.

Lemma outside_true (w h : R) (p : @Node R) :
  outside w h p = true <-> ~ on_surface w h p.
Proof.
  rewrite <- outside_false.
  destruct (outside w h p); split; auto; try discriminate; congruence.
Qed.

Lemma fresh_in_ranges (source : nat -> R) (w h : R) (k : nat) :
  unit_source source -> 0 < w -> 0 < h ->
  fresh_ranges w h (fresh source w h k).
Proof.
  intros U Hw Hh. unfold fresh_ranges, fresh, int; simpl.
  pose proof (U k). pose proof (U (k + 1)%nat). pose proof (U (k + 2)%nat).
  pose proof (U (k + 3)%nat). pose proof (U (k + 4)%nat). pose proof (U (k + 5)%nat).
  repeat split; nra.
Qed.

Lemma fresh_on_surface (source : nat -> R) (w h : R) (k : nat) :
  unit_source source -> 0 <= w -> 0 <= h ->
  on_surface w h (fresh source w h k).
Proof.
  intros U Hw Hh. unfold on_surface, fresh; simpl.
  pose proof (U k). pose proof (U (k + 1)%nat).
  repeat split; nra.
Qed.

Lemma update_lands_on_surface (source : nat -> R) (w h : R) (p : @Node R) (k : nat) :
  unit_source source -> 0 <= w -> 0 <= h ->
  on_surface w h (fst (update w h p source k)).
Proof.
  intros U Hw Hh. rewrite update_cases.
  destruct (outside w h (advance p)) eqn:O; simpl.
  - now apply fresh_on_surface.
  - now apply outside_false.
Qed.

(** C1 (as amended).  With draws in [[0,1)] and dimensions that are not
    negative, a node that [update] returns lies on the surface with its
    edges, [0 <= x <= width] and [0 <= y <= height]; so do all nodes after
    a frame. *)
Theorem tick_on_surface (source : nat -> R) (st : @State R) :
  unit_source source -> 0 <= width st -> 0 <= height st ->
  (forall p k,
      on_surface (width st) (height st) (fst (update (width st) (height st) p source k)))
  /\ Forall (on_surface (width (tick source st)) (height (tick source st)))
            (nodes (tick source st)).
Proof.
  intros U Hw Hh. split.
  - intros p k. now apply update_lands_on_surface.
  - destruct (animate_dims source st) as [-> ->].
    unfold tick. rewrite animate_sweep.
    pose proof (sweep_Forall source (on_surface (width st) (height st))
                  (width st) (height st)
                  (fun p k => update_lands_on_surface source (width st) (height st) p k
                                U Hw Hh)
                  (nodes st) 0%nat (cursor st)) as F.
    destruct (sweep source (width st) (height st) 0%nat (nodes st) (cursor st))
      as [[ns k] evs]; simpl in *. exact F.
Qed.

Lemma steady_unit : unit_source Samples.steady.
Proof. intros k. unfold Samples.steady; simpl. lra. Qed.

Lemma tick_on_surface_witness :
  unit_source Samples.steady
  /\ Forall (on_surface (width (tick Samples.steady (Samples.field [Samples.right_edge_node])))
                        (height (tick Samples.steady (Samples.field [Samples.right_edge_node]))))
            (nodes (tick Samples.steady (Samples.field [Samples.right_edge_node]))).
Proof.
  split; [exact steady_unit|].
  apply (tick_on_surface Samples.steady (Samples.field [Samples.right_edge_node])).
  - exact steady_unit.
  - unfold int; simpl. lra.
  - unfold int; simpl. lra.
Defined.

(** C1 (as stated) fails on the right edge: the node at [x = 799.75] with
    [speedX = 0.25] on a surface 800 wide is moved to [x = 800 = width];
    [800 > 800] is false, so it is not reset, and 800 is not in
    [[0, 800)]. *)
Lemma update_reaches_right_edge :
  let p := fst (update (num:=R) (int 800) (int 600) Samples.right_edge_node Samples.steady 0%nat) in
  x p = 800 /\ ~ in_surface 800 600 p.
Proof.
  rewrite update_cases.
  assert (O : outside (num:=R) (int 800) (int 600) (advance Samples.right_edge_node) = false).
  { apply outside_false. coordinates. }
  rewrite O. simpl. split; [lra|].
  unfold in_surface; simpl. lra.
Qed.

Lemma dist_euclid (p1 p2 : @Node R) : dist p1 p2 = euclid p1 p2.
Proof. reflexivity. Qed.

Lemma euclid_lt_150 (p1 p2 : @Node R) :
  ltb (dist p1 p2) (int 150) = true <-> euclid p1 p2 < 150.
Proof.
  rewrite dist_euclid. unfold int; simpl. rewrite Rltb_iff.
  split; intros L; lra.
Qed.

(** In exact arithmetic the distance [animate] computes is the Euclidean
    distance, and the test is below 150 strictly. *)
Lemma frame_line_euclid (source : nat -> R) (st : @State R) (i j : nat) :
  line_drawn (snd (animate source st)) i j <->
  (i < j)%nat
  /\ exists p1 p2,
      nth_error (nodes (tick source st)) i = Some p1
      /\ nth_error (nodes st) j = Some p2
      /\ euclid p1 p2 < 150.
Proof.
  unfold line_drawn. split.
  - intros (p1 & p2 & Hin). apply In_animate in Hin as (Hij & E1 & E2 & L).
    split; [exact Hij|]. exists p1, p2. repeat split; auto.
    apply euclid_lt_150. now symmetry.
  - intros (Hij & p1 & p2 & E1 & E2 & L). exists p1, p2.
    apply In_animate. repeat split; auto.
    symmetry. now apply euclid_lt_150.
Qed.

Lemma const_lt_sqrt (t a : R) : 0 <= t -> t * t < a -> t < sqrt a.
Proof.
  intros Ht L. rewrite <- (sqrt_square t Ht).
  apply sqrt_lt_1_alt. nra.
Qed.

Lemma two_nodes_frame :
  tick (num:=R) Samples.steady (Samples.field [Samples.left_node; Samples.right_node])
  = Samples.field [advance Samples.left_node; advance Samples.right_node].
Proof.
  assert (O1 : outside (num:=R) (int 800) (int 600) (advance Samples.left_node) = false).
  { apply outside_false. coordinates. }
  assert (O2 : outside (num:=R) (int 800) (int 600) (advance Samples.right_node) = false).
  { apply outside_false. coordinates. }
  unfold tick. rewrite animate_sweep.
  cbn [Samples.field nodes width height cursor sweep].
  rewrite update_cases, O1. rewrite update_cases, O2. reflexivity.
Qed.

Lemma short_of_150 :
  euclid Samples.origin_node Samples.short_node < 150.
Proof.
  unfold euclid, int; simpl. apply sqrt_lt_const; lra.
Qed.

Lemma distant_nodes :
  150 < euclid Samples.left_node Samples.right_node
  /\ 150 < euclid (advance Samples.left_node) (advance Samples.right_node).
Proof.
  split; unfold euclid, int; simpl; apply const_lt_sqrt; nra.
Qed.

End NebulaIdeal.

Section NebulaLines.

Import Nebula.

Context {num : Type} `{JSNumber num}.

(** C2 (as amended).  In every number model, so in binary64: a frame
    joins the nodes at [i] and [j] by a line exactly when [i < j], both
    are in the array, and the distance the code computes,
    [Math.sqrt(dx*dx + dy*dy)], between the node at [i] as the frame has
    moved it and the node at [j] as it stood before the frame, tests
    below 150.  In binary64 a computed distance of exactly 150 gives no
    line. *)
Theorem frame_line_iff (source : nat -> num) (st : State) (i j : nat) :
  (line_drawn (snd (animate source st)) i j <->
   i < j
   /\ exists p1 p2,
       nth_error (nodes (tick source st)) i = Some p1
       /\ nth_error (nodes st) j = Some p2
       /\ ltb (dist p1 p2) (int 150) = true)
  /\ forall (random : nat -> PrimFloat.float) (field : @State PrimFloat.float)
            (p1 p2 : @Node PrimFloat.float),
      nth_error (nodes (tick random field)) i = Some p1 ->
      nth_error (nodes field) j = Some p2 ->
      dist p1 p2 = int 150 ->
      ~ line_drawn (snd (animate random field)) i j.
Proof.
  split.
  - unfold line_drawn. split.
    + intros (p1 & p2 & Hin). apply In_animate in Hin as (Hij & E1 & E2 & L).
      split; [exact Hij|]. exists p1, p2. repeat split; auto.
    + intros (Hij & p1 & p2 & E1 & E2 & L). exists p1, p2.
      apply In_animate. repeat split; auto.
  - intros random field p1 p2 E1 E2 D (q1 & q2 & Hin).
    apply In_animate in Hin as (_ & F1 & F2 & L).
    rewrite E1 in F1. rewrite E2 in F2. injection F1 as <-. injection F2 as <-.
    rewrite D in L. vm_compute in L. discriminate L.
Qed.


End NebulaLines.

(** ** The globe over the real numbers *)

Section GlobeIdeal.

Import Globe.
Local Open Scope R_scope.






End GlobeIdeal.

Section GlobeLinks.

Import Globe.

Context {num : Type} `{JSNumber num}.




End GlobeLinks.

(** ** The contact form *)

Section ContactForm.

Import Contact.
Local Open Scope string_scope.

Lemma falsy_iff (s : string) : falsy s = true <-> s = "".
Proof. destruct s; simpl; split; congruence. Qed.




(** C10.  When the email or the message is empty, [sendMessage] returns
    at the presence check: nothing is awaited and the page (button, form,
    timers, and the trace, so the requests) is as it was. *)
Theorem sendMessage_requires_fields (o : Outcome) (pg : Page) (f : Form) :
  form pg = Some f -> email f = "" \/ message f = "" ->
  start pg = (pg, None)
  /\ sendMessage o pg = pg
  /\ requests (trace (sendMessage o pg)) = requests (trace pg).
Proof.
  intros Ef E.
  assert (S : start pg = (pg, None)).
  { unfold start. rewrite Ef. destruct (btn pg) as [b|]; [|reflexivity].
    assert (G : falsy (email f) || falsy (message f) = true).
    { apply orb_true_iff. destruct E as [E|E]; [left|right]; now apply falsy_iff. }
    now rewrite G. }
  assert (M : sendMessage o pg = pg) by (unfold sendMessage; now rewrite S).
  repeat split; auto. now rewrite M.
Qed.

Lemma sendMessage_requires_fields_witness :
  sendMessage (Responded true) Samples.no_message = Samples.no_message.
Proof.
  apply (sendMessage_requires_fields (Responded true) Samples.no_message
           {| email := "a@b.c"; message := "";
              email_default := ""; message_default := "" |}).
  - reflexivity.
  - right. reflexivity.
Defined.




End ContactForm.

(** ** Runs of the nebula background under binary64 *)

Section IeeeLiterals.

Import PrimFloat.
#[local] Set Warnings "-inexact-float".

(** [lit] at [ieee] is the double a JavaScript engine reads the literal
    as. *)
Example ieee_literals :
  (@lit float ieee 5 10, @lit float ieee 8 10, @lit float ieee 2 10,
   @lit float ieee 6 10, @lit float ieee 3 10, @lit float ieee 35 100,
   @lit float ieee 5 100, @int float ieee 150, @int float ieee 800)
  = (0.5, 0.8, 0.2, 0.6, 0.3, 0.35, 0.05, 150, 800)%float.
Proof. vm_compute; reflexivity. Qed.

End IeeeLiterals.

Section NebulaIeee.

Import Nebula.



(** The node of C1 in binary64: moved to [x = 800], kept, no draw. *)
Example ieee_right_edge :
  update (num:=PrimFloat.float) (int 800) (int 600) Samples.right_edge_node Samples.steady 0
  = ({| x := int 800; y := int 10; size := int 1;
        speedX := lit 25 100; speedY := int 0; opacity := lit 5 10 |}, 0)
  /\ ltb (num:=PrimFloat.float) (int 800) (int 800) = false.
Proof. split; vm_compute; reflexivity. Qed.


(** C2 (as stated) fails in binary64 both ways.  Two nodes 150.125 apart
    that both move right by 0.25: the frame moves the first, finds the
    second, not yet moved, 149.875 away and joins them, then moves the
    second; their distance is above 150 before the frame and after it,
    as computed and over the reals.  And the nodes at [(0, 0)] and
    [(90, 120 - 2^-46)], which binary64 holds exactly, are less than 150
    apart, but the sum of the squares rounds to 22500 and the computed
    distance is 150: no line. *)
Lemma line_between_distant_nodes :
  (lines (snd (animate (num:=PrimFloat.float) Samples.steady
                 (Samples.field [Samples.left_node; Samples.right_node]))) = [(0, 1)]
   /\ nodes (tick (num:=PrimFloat.float) Samples.steady
               (Samples.field [Samples.left_node; Samples.right_node]))
      = [advance Samples.left_node; advance Samples.right_node]
   /\ ltb (num:=PrimFloat.float) (int 150) (dist Samples.left_node Samples.right_node) = true
   /\ ltb (num:=PrimFloat.float) (int 150)
          (dist (advance Samples.left_node) (advance Samples.right_node)) = true
   /\ (150 < Surface.euclid Samples.left_node Samples.right_node)%R
   /\ (150 < Surface.euclid (advance Samples.left_node) (advance Samples.right_node))%R)
  /\ (lines (snd (animate (num:=PrimFloat.float) Samples.steady
                    (Samples.field [Samples.origin_node; Samples.short_node]))) = []
      /\ nodes (tick (num:=PrimFloat.float) Samples.steady
                  (Samples.field [Samples.origin_node; Samples.short_node]))
         = [Samples.origin_node; Samples.short_node]
      /\ dist (num:=PrimFloat.float) Samples.origin_node Samples.short_node = int 150
      /\ FloatOps.Prim2SF (y (Samples.short_node (num:=PrimFloat.float)))
         = SpecFloat.S754_finite false 8444249301319679 (-46)
      /\ (Surface.euclid Samples.origin_node Samples.short_node < 150)%R).
Proof.
  split.
  - split; [vm_compute; reflexivity|]. split; [vm_compute; reflexivity|].
    split; [vm_compute; reflexivity|]. split; [vm_compute; reflexivity|].
    exact distant_nodes.
  - split; [vm_compute; reflexivity|]. split; [vm_compute; reflexivity|].
    split; [vm_compute; reflexivity|]. split; [vm_compute; reflexivity|].
    exact short_of_150.
Qed.

(** Binary64 reaches the edge from the start: with [edge_source] the
    first node is built at [x = 799.75] with [speedX = 0.25], and the
    frame [initNebulaBackground] runs moves it to [x = 800 = width]; the
    60 nodes took 360 draws, none for a reset. *)
Example ieee_edge_after_init :
  option_map (fun r => (option_map x (nth_error (nodes (fst r)) 0),
                        width (fst r), cursor (fst r)))
    (initNebulaBackground (num:=PrimFloat.float) true Samples.edge_source 0
       Samples.window_800_600)
  = Some (Some (int 800), int 800, 360).
Proof. vm_compute; reflexivity. Qed.



(** A field of 60 nodes on a window 800 wide, 30 on one 799 wide. *)
Example ieee_node_counts :
  nodeCount (num:=PrimFloat.float) Samples.window_800_600 = 60
  /\ nodeCount (num:=PrimFloat.float) {| innerWidth := int 799; innerHeight := int 600 |} = 30.
Proof. split; vm_compute; reflexivity. Qed.

End NebulaIeee.

(** ** [throttle] *)

Section ThrottleFacts.

Import Throttle.

Variables Arg St : Type.
Variable func : Arg -> St -> St.
Variable limit : nat.

Lemma fresh_consistent (s : St) : consistent (fresh s).
Proof.
  unfold consistent, fresh; simpl. split; [lia|]. split; [discriminate|congruence].
Qed.

Lemma handle_consistent (c : Closure St) (e : Event Arg) :
  consistent c -> consistent (handle func limit c e).
Proof.
  unfold consistent. intros [L I]. destruct e as [a|]; simpl.
  - unfold wrapped. destruct (inThrottle c) eqn:B; [now rewrite B|]. simpl.
    assert (E : timers c = []).
    { destruct (timers c) as [|t ts] eqn:T; [reflexivity|].
      assert (F : false = true) by (apply I; discriminate). discriminate. }
    rewrite E. simpl. split; [lia|]. split; [discriminate|reflexivity].
  - unfold expire. destruct (timers c) as [|t ts] eqn:T.
    + rewrite T. auto.
    + simpl in *. assert (E : ts = []) by (destruct ts; simpl in L; [reflexivity|lia]).
      subst ts. split; [simpl; lia|]. split; [discriminate|congruence].
Qed.

Lemma run_consistent (evs : list (Event Arg)) :
  forall c, consistent c -> consistent (run func limit c evs).
Proof.
  induction evs as [|e evs IH]; intros c C; simpl; [exact C|].
  apply IH. now apply handle_consistent.
Qed.

Lemma run_admitted (evs : list (Event Arg)) :
  forall c, consistent c ->
    target (run func limit c evs)
    = fold_left (fun s a => func a s) (admitted (inThrottle c) evs) (target c).
Proof.
  induction evs as [|e evs IH]; intros c C; simpl; [reflexivity|].
  rewrite (IH _ (handle_consistent c e C)).
  destruct e as [a|]; simpl.
  - unfold wrapped. destruct (inThrottle c) eqn:B; simpl; [now rewrite B|reflexivity].
  - unfold expire. destruct (timers c) as [|t ts] eqn:T; simpl; [|reflexivity].
    destruct (inThrottle c) eqn:B; [|reflexivity].
    destruct C as [_ I]. exfalso. now apply I.
Qed.

Lemma admitted_bound (evs : list (Event Arg)) :
  forall busy,
    List.length (admitted busy evs) <= (if busy then 0 else 1) + timeouts evs.
Proof.
  unfold timeouts.
  induction evs as [|e evs IH]; intros busy; simpl; [lia|].
  destruct e as [a|]; simpl.
  - destruct busy; simpl; [apply (IH true)|]. specialize (IH true). simpl in IH. lia.
  - specialize (IH false). simpl in IH. destruct busy; lia.
Qed.

Lemma run_calls_only (evs : list (Event Arg)) :
  Forall is_call evs ->
  forall c, inThrottle c = true -> run func limit c evs = c.
Proof.
  induction 1 as [|e evs He _ IH]; intros c B; simpl; [reflexivity|].
  destruct e as [a|]; [|contradiction]. simpl.
  unfold wrapped. rewrite B. now apply IH.
Qed.

Lemma run_first_call (s : St) (a : Arg) (evs : list (Event Arg)) :
  Forall is_call evs ->
  run func limit (fresh s) (Call a :: evs)
  = {| inThrottle := true; timers := [limit]; target := func a s |}.
Proof.
  intros C. simpl. unfold wrapped; simpl. now apply run_calls_only.
Qed.

(** X1.  However calls and timeouts interleave, the throttled function
    has run [func] on exactly the admitted calls, in order: those that
    arrive when no call was served since the last timeout.  At most one
    timer is ever waiting, the flag is set exactly while it waits, and
    [func] has run at most once more than timers have fired. *)
Theorem throttle_serves (s : St) (evs : list (Event Arg)) :
  let c := run func limit (fresh s) evs in
  target c = fold_left (fun s a => func a s) (admitted false evs) s
  /\ List.length (timers c) <= 1
  /\ (inThrottle c = true <-> timers c <> [])
  /\ List.length (admitted false evs) <= 1 + timeouts evs.
Proof.
  intros c. split; [|split; [|split]].
  - apply (run_admitted evs (fresh s) (fresh_consistent s)).
  - apply (run_consistent evs (fresh s) (fresh_consistent s)).
  - apply (run_consistent evs (fresh s) (fresh_consistent s)).
  - apply (admitted_bound evs false).
Qed.

(** X2.  A call that is served shuts out every call that follows before
    the timer fires: they change nothing, set no timer and are not kept
    for later (there is no trailing call). *)
Theorem throttle_drops (s : St) (a : Arg) (evs : list (Event Arg)) :
  Forall is_call evs ->
  run func limit (fresh s) (Call a :: evs)
  = {| inThrottle := true; timers := [limit]; target := func a s |}.
Proof. apply run_first_call. Qed.

End ThrottleFacts.

Lemma throttle_drops_witness :
  Forall Throttle.is_call [Throttle.Call 2; Throttle.Call 3]
  /\ Throttle.run (fun a s => a + s) 100 (Throttle.fresh 0)
       [Throttle.Call 1; Throttle.Call 2; Throttle.Call 3]
     = {| Throttle.inThrottle := true; Throttle.timers := [100]; Throttle.target := 1 |}.
Proof.
  assert (C : Forall Throttle.is_call [Throttle.Call 2; Throttle.Call 3])
    by (repeat constructor).
  split; [exact C|].
  exact (throttle_drops nat nat (fun a s => a + s) 100 0 1
           [Throttle.Call 2; Throttle.Call 3] C).
Defined.

(** ** The throttled listeners *)

Lemma fold_overwrite {A S : Type} (f : A -> S -> S) :
  (forall a b s, f a (f b s) = f a s) ->
  forall l s,
    fold_left (fun s a => f a s) l s
    = match rev l with
      | [] => s
      | a :: _ => f a s
      end.
Proof.
  intros O l. induction l as [|a l IH] using rev_ind; intros s; [reflexivity|].
  rewrite fold_left_app, rev_app_distr. simpl.
  rewrite IH. destruct (rev l); [reflexivity|apply O].
Qed.

Section Listeners.

Context {num : Type} `{JSNumber num}.

(** X3.  The navbar: whatever scroll events and timeouts have happened,
    the class [scrolled] says whether [scrollY] was above 50 at the last
    admitted scroll event (it is as the page had it when none was
    admitted).  Positions reported by events that were not admitted never
    reach it, so it can stay set on a page scrolled back to the top. *)
Theorem navbar_shows_last_admitted (scrolled : bool) (evs : list (Throttle.Event num)) :
  Throttle.target (Throttle.run Navbar.handler 100 (Throttle.fresh scrolled) evs)
  = match rev (Throttle.admitted false evs) with
    | [] => scrolled
    | y :: _ => ltb (int 50) y
    end.
Proof.
  rewrite (run_admitted num bool Navbar.handler 100 evs (Throttle.fresh scrolled)
             (fresh_consistent bool scrolled)).
  simpl. rewrite fold_overwrite by reflexivity.
  destruct (rev (Throttle.admitted false evs)) as [|y l]; [reflexivity|].
  unfold Navbar.handler. now destruct (ltb (int 50) y).
Qed.

(** X4.  The nebula background: whatever resize events and timeouts have
    happened, the field has the dimensions of the window at the last
    admitted resize event, and its nodes and random cursor are those it
    started with; a resize that was not admitted is never applied. *)
Theorem resize_applies_last_admitted (st : @Nebula.State num)
    (evs : list (Throttle.Event Nebula.Window)) :
  let st' := Throttle.target (Throttle.run Nebula.resize 200 (Throttle.fresh st) evs) in
  st' = match rev (Throttle.admitted false evs) with
        | [] => st
        | win :: _ => Nebula.resize win st
        end
  /\ Nebula.nodes st' = Nebula.nodes st
  /\ Nebula.cursor st' = Nebula.cursor st.
Proof.
  intros st'.
  assert (E : st' = match rev (Throttle.admitted false evs) with
                    | [] => st
                    | win :: _ => Nebula.resize win st
                    end).
  { subst st'.
    rewrite (run_admitted Nebula.Window Nebula.State Nebula.resize 200 evs
               (Throttle.fresh st) (fresh_consistent Nebula.State st)).
    simpl. now rewrite fold_overwrite by reflexivity. }
  split; [exact E|]. rewrite E.
  destruct (rev (Throttle.admitted false evs)); split; reflexivity.
Qed.

End Listeners.

(** ** [initThemeToggle] *)

Section ThemeFacts.

Import Theme.
Local Open Scope string_scope.

Lemma missing_some (s : string) : s <> "" -> missing (Some s) = false.
Proof. destruct s; simpl; congruence. Qed.

(** The theme a click moves to. *)
Lemma click_attribute (pg : Page) :
  attribute (click pg) = Some "dark" \/ attribute (click pg) = Some "light".
Proof.
  unfold click; simpl.
  destruct (String.eqb _ "dark"); auto.
Qed.

(** X5.  Whatever the page held, a click leaves the theme ['dark'] or
    ['light'], stores that same value, and shows the matching picture;
    and running [initThemeToggle] again on the page a click left (a
    reload) changes nothing, whatever the system preference: the stored
    choice wins. *)
Theorem click_then_reload (prefers_light : bool) (pg : Page) :
  (attribute (click pg) = Some "dark" \/ attribute (click pg) = Some "light")
  /\ stored (click pg) = attribute (click pg)
  /\ (forall old theme,
        button pg = Some old -> attribute (click pg) = Some theme ->
        button (click pg) = Some (Some (icon_of theme)))
  /\ fst (initThemeToggle prefers_light (click pg)) = click pg.
Proof.
  split; [apply click_attribute|]. split; [reflexivity|]. split.
  - intros old theme B A. unfold click in *; simpl in *. rewrite B.
    injection A as <-. reflexivity.
  - unfold initThemeToggle, click; simpl.
    destruct (button pg) as [old|]; simpl; [|reflexivity].
    destruct (String.eqb _ "dark"); reflexivity.
Qed.

(** X6.  From a page whose theme is ['dark'] or ['light'] and stored as
    such, two clicks restore theme, stored value and picture: the
    toggle is an involution there. *)
Theorem click_twice (pg : Page) (theme : string) :
  theme = "dark" \/ theme = "light" ->
  attribute pg = Some theme -> stored pg = Some theme ->
  button pg = Some (Some (icon_of theme)) ->
  click (click pg) = pg /\ attribute (click pg) <> attribute pg.
Proof.
  intros [-> | ->] A S B; destruct pg as [st at' bt]; simpl in *; subst;
    split; try reflexivity; discriminate.
Qed.

Lemma click_twice_witness :
  click (click {| stored := Some "light"; attribute := Some "light";
                  button := Some (Some NewMoon) |})
  = {| stored := Some "light"; attribute := Some "light";
       button := Some (Some NewMoon) |}.
Proof.
  exact (proj1 (click_twice
                  {| stored := Some "light"; attribute := Some "light";
                     button := Some (Some NewMoon) |}
                  "light" (or_intror eq_refl) eq_refl eq_refl eq_refl)).
Defined.

(** X7.  [initThemeToggle] never writes the storage, and it applies a
    stored value that is not empty as it is, without checking it: any
    value other than ['dark'] gets the picture of the light theme, and
    the first click from it goes to ['dark'].  With nothing stored (or
    the empty string) the theme follows the system preference. *)
Theorem init_applies_stored (prefers_light : bool) (pg : Page) (old : option Icon) :
  button pg = Some old ->
  let pg' := fst (initThemeToggle prefers_light pg) in
  stored pg' = stored pg
  /\ (forall s, stored pg = Some s -> s <> "" ->
        attribute pg' = Some s
        /\ (s <> "dark" ->
            button pg' = Some (Some NewMoon) /\ attribute (click pg') = Some "dark"))
  /\ (missing (stored pg) = true ->
        attribute pg' = Some (if prefers_light then "light" else "dark")).
Proof.
  intros B pg'. subst pg'. unfold initThemeToggle. rewrite B. simpl.
  split; [reflexivity|]. split.
  - intros s S N. rewrite S, (missing_some s N).
    split; [reflexivity|]. intros D.
    assert (E : String.eqb s "dark" = false) by (now apply String.eqb_neq).
    unfold icon_of, click. cbn [attribute button stored].
    change (match s with "" => true | String _ _ => false end) with (missing (Some s)).
    rewrite (missing_some s N), E. auto.
  - intros M. now rewrite M.
Qed.

Lemma init_applies_stored_witness :
  attribute (fst (initThemeToggle true
                    {| stored := Some "Dark"; attribute := None; button := Some None |}))
  = Some "Dark".
Proof.
  exact (proj1 (proj1 (proj2 (init_applies_stored true
                  {| stored := Some "Dark"; attribute := None; button := Some None |}
                  None eq_refl))
                "Dark" eq_refl ltac:(discriminate))).
Defined.

End ThemeFacts.

(** ** [typeText] *)

Section TypingFacts.

Import Ascii Typing.
Local Open Scope string_scope.

Lemma append_nil_r (s : string) : s ++ "" = s.
Proof. induction s as [|c s IH]; simpl; [reflexivity|now rewrite IH]. Qed.

Lemma append_assoc (a b c : string) : (a ++ b) ++ c = a ++ (b ++ c).
Proof. induction a as [|d a IH]; simpl; [reflexivity|now rewrite IH]. Qed.

Lemma length_append (a b : string) :
  String.length (a ++ b) = (String.length a + String.length b)%nat.
Proof. induction a as [|d a IH]; simpl; [reflexivity|now rewrite IH]. Qed.

Lemma get_append_length (a : string) (c : ascii) (b : string) :
  String.get (String.length a) (a ++ String c b) = Some c.
Proof. induction a as [|d a IH]; simpl; [reflexivity|exact IH]. Qed.

Lemma occurs_append (c : ascii) (a b : string) :
  occurs c (a ++ b) = occurs c a || occurs c b.
Proof.
  induction a as [|d a IH]; simpl; [reflexivity|].
  now rewrite IH, orb_assoc.
Qed.

Lemma remove_first_append (c : ascii) (a b : string) :
  occurs c a = false -> remove_first c (a ++ String c b) = a ++ b.
Proof.
  induction a as [|d a IH]; simpl.
  - intros _. now rewrite Ascii.eqb_refl.
  - intros O. apply orb_false_iff in O as [D O]. rewrite D. now rewrite IH.
Qed.

(** One call of [type] before the end of the text. *)
Lemma type_next (done : string) (c : ascii) (rest : string) (speed : nat) (shown : string) :
  type (done ++ String c rest) speed {| innerText := shown; i := String.length done |}
  = ({| innerText := remove_first "_" shown ++ String c "" ++ "_";
        i := S (String.length done) |}, Again speed).
Proof.
  unfold type. cbn [i innerText].
  assert (L : (String.length done <? String.length (done ++ String c rest))%nat = true).
  { apply Nat.ltb_lt. rewrite length_append. simpl. lia. }
  rewrite L. unfold charAt. now rewrite get_append_length.
Qed.

(** The call of [type] at the end of the text, and the last timer. *)
Lemma play_end (text : string) (speed : nat) (shown : string) (fuel : nat) :
  play (S fuel) text speed {| innerText := shown; i := String.length text |}
  = Some {| innerText := remove_first "_" shown; i := String.length text |}.
Proof.
  simpl. unfold type. cbn [i innerText]. now rewrite Nat.ltb_irrefl.
Qed.

Lemma play_again (fuel : nat) (done : string) (c : ascii) (rest : string) (speed : nat)
    (shown : string) :
  play (S fuel) (done ++ String c rest) speed
       {| innerText := shown; i := String.length done |}
  = play fuel (done ++ String c rest) speed
         {| innerText := remove_first "_" shown ++ String c "" ++ "_";
            i := S (String.length done) |}.
Proof. cbn [play]. now rewrite type_next. Qed.

(** Typing a stretch without underscores behind a cursor that is the
    only underscore shown. *)
Lemma play_plain (speed : nat) (fuel : nat) :
  forall todo done rest,
    occurs "_" done = false -> occurs "_" todo = false ->
    play (String.length todo + fuel) (done ++ todo ++ rest) speed
         {| innerText := done ++ "_"; i := String.length done |}
    = play fuel (done ++ todo ++ rest) speed
           {| innerText := (done ++ todo) ++ "_"; i := String.length (done ++ todo) |}.
Proof.
  induction todo as [|c todo IH]; intros done rest D T.
  - simpl. now rewrite append_nil_r.
  - simpl in T. apply orb_false_iff in T as [C T].
    cbn [String.length Nat.add].
    change ((String c todo) ++ rest) with (String c (todo ++ rest)).
    rewrite play_again, (remove_first_append "_" done "" D), append_nil_r.
    assert (E : done ++ String c (todo ++ rest) = (done ++ String c "") ++ todo ++ rest)
      by now rewrite append_assoc.
    assert (L : S (String.length done) = String.length (done ++ String c ""))
      by (rewrite length_append; simpl; lia).
    assert (F : done ++ String c "" ++ "_" = (done ++ String c "") ++ "_")
      by now rewrite append_assoc.
    rewrite E, L, F. rewrite IH.
    + now rewrite !append_assoc.
    + rewrite occurs_append, D. simpl. now rewrite C.
    + exact T.
Qed.

(** Typing a stretch without underscores when an underscore of the text
    is shown before the cursor: each call removes that one. *)
Lemma play_carry (speed : nat) :
  forall todo done a b,
    occurs "_" a = false -> occurs "_" b = false -> occurs "_" todo = false ->
    play (S (String.length todo)) (done ++ todo) speed
         {| innerText := a ++ String "_" (b ++ "_"); i := String.length done |}
    = Some {| innerText := a ++ b ++ todo ++ "_"; i := String.length (done ++ todo) |}.
Proof.
  induction todo as [|c todo IH]; intros done a b A B T.
  - rewrite append_nil_r, play_end.
    now rewrite (remove_first_append "_" a (b ++ "_") A).
  - simpl in T. apply orb_false_iff in T as [C T].
    cbn [String.length]. rewrite play_again.
    rewrite (remove_first_append "_" a (b ++ "_") A).
    assert (E : done ++ String c todo = (done ++ String c "") ++ todo)
      by now rewrite append_assoc.
    assert (L : S (String.length done) = String.length (done ++ String c ""))
      by (rewrite length_append; simpl; lia).
    assert (F : (a ++ b ++ "_") ++ String c "" ++ "_"
                = (a ++ b) ++ String "_" (String c "" ++ "_"))
      by now rewrite !append_assoc.
    rewrite E, L, F. rewrite IH.
    + now rewrite !append_assoc.
    + rewrite occurs_append, A. exact B.
    + simpl. now rewrite C.
    + exact T.
Qed.

Lemma play_none (text : string) (speed : nat) :
  forall fuel t, fuel + i t <= String.length text -> play fuel text speed t = None.
Proof.
  induction fuel as [|fuel IH]; intros t L; [reflexivity|].
  simpl. unfold type.
  assert (B : (i t <? String.length text)%nat = true) by (apply Nat.ltb_lt; lia).
  rewrite B. apply IH. simpl. lia.
Qed.

(** X8.  For a text without underscore, [type] runs once per character
    and once more, and when the last timer has fired the element reads
    exactly the text; with fewer calls of [type] the typing is not
    over. *)
Theorem typeText_plain (text : string) (speed fuel : nat) :
  occurs "_" text = false ->
  (String.length text < fuel -> typeText fuel true text speed = Some (Some text))
  /\ (fuel <= String.length text -> typeText fuel true text speed = None).
Proof.
  intros T. split.
  - intros L. unfold typeText, begin.
    replace fuel with (String.length text + S (fuel - S (String.length text)))%nat by lia.
    pose proof (play_plain speed (S (fuel - S (String.length text))) text "" ""
                  eq_refl T) as P.
    rewrite !append_nil_r in P. cbn [append String.length] in P.
    rewrite P, play_end. cbn [option_map innerText].
    now rewrite (remove_first_append "_" text "" T), append_nil_r.
  - intros L. unfold typeText. rewrite play_none; [reflexivity|]. simpl. lia.
Qed.

Lemma typeText_plain_witness :
  typeText 11 true "sys.init()" 25 = Some (Some "sys.init()").
Proof.
  exact (proj1 (typeText_plain "sys.init()" 25 11 eq_refl) ltac:(simpl; lia)).
Defined.

(** X9.  An underscore in the text is not typed in place: for a text
    [u_v] with no other underscore the element ends reading [uv_], the
    underscore moved to the end, because every call of [type] and the
    last timer remove the first underscore shown, which is then the
    text's own and not the cursor. *)
Theorem typeText_moves_underscore (u v : string) (speed : nat) :
  occurs "_" u = false -> occurs "_" v = false ->
  typeText (S (String.length (u ++ "_" ++ v))) true (u ++ "_" ++ v) speed
  = Some (Some (u ++ v ++ "_")).
Proof.
  intros U V. unfold typeText, begin.
  replace (S (String.length (u ++ "_" ++ v)))
    with (String.length u + S (S (String.length v)))%nat
    by (rewrite length_append; simpl; lia).
  pose proof (play_plain speed (S (S (String.length v))) u "" ("_" ++ v) eq_refl U) as P.
  cbn [append String.length] in P. cbn [append]. rewrite P. clear P.
  rewrite play_again.
  rewrite (remove_first_append "_" u "" U), append_nil_r.
  assert (E : u ++ String "_" v = (u ++ "_") ++ v) by now rewrite append_assoc.
  assert (L : S (String.length u) = String.length (u ++ "_"))
    by (rewrite length_append; simpl; lia).
  rewrite E, L.
  change (u ++ String "_" "" ++ "_") with (u ++ String "_" ("" ++ "_")).
  rewrite (play_carry speed v (u ++ "_") u "" U eq_refl V). reflexivity.
Qed.

Lemma typeText_moves_underscore_witness :
  typeText 4 true "a_b" 25 = Some (Some "ab_").
Proof.
  exact (typeText_moves_underscore "a" "b" 25 eq_refl eq_refl).
Defined.

End TypingFacts.

(** ** [initUptimeCounter] *)

Section UptimeFacts.

Import Ascii Uptime.
Local Open Scope string_scope.

Lemma value_toString (n : N) : value (toString n) = Some n.
Proof.
  unfold value, toString. rewrite DecimalString.NilEmpty.usu. simpl.
  now rewrite DecimalN.Unsigned.of_to.
Qed.

Lemma value_zero (s : string) : value (String "0" s) = value s.
Proof.
  unfold value. simpl.
  destruct (DecimalString.NilEmpty.uint_of_string s); reflexivity.
Qed.

Lemma value_fill (k : nat) (s : string) : value (fill k "0" ++ s) = value s.
Proof.
  induction k as [|k IH]; simpl; [reflexivity|]. now rewrite value_zero.
Qed.

Lemma value_pad (n : N) : value (padStart 2 "0" (toString n)) = Some n.
Proof. unfold padStart. now rewrite value_fill, value_toString. Qed.

Lemma length_digits (d : Decimal.uint) :
  String.length (DecimalString.NilEmpty.string_of_uint d) = Decimal.nb_digits d.
Proof. induction d; simpl; congruence. Qed.

Lemma two_digits (d : Decimal.uint) :
  Decimal.nb_digits d <= 2 -> (N.of_uint d < 100)%N.
Proof.
  intros L.
  destruct d as [|d|d|d|d|d|d|d|d|d|d]; try (vm_compute; reflexivity);
    (destruct d as [|d|d|d|d|d|d|d|d|d|d]; try (vm_compute; reflexivity);
     (destruct d; [vm_compute; reflexivity | simpl in L; lia ..])).
Qed.

Lemma length_toString_large (n : N) :
  (100 <= n)%N -> 3 <= String.length (toString n).
Proof.
  intros L. unfold toString. rewrite length_digits.
  destruct (le_lt_dec (Decimal.nb_digits (N.to_uint n)) 2) as [S|S]; [|lia].
  apply two_digits in S. rewrite DecimalN.Unsigned.of_to in S. lia.
Qed.

Lemma length_fill (k : nat) (c : ascii) : String.length (fill k c) = k.
Proof. induction k as [|k IH]; simpl; [reflexivity|now rewrite IH]. Qed.

Lemma length_pad (s : string) :
  String.length (padStart 2 "0" s) = Nat.max 2 (String.length s).
Proof. unfold padStart. rewrite length_append, length_fill. lia. Qed.

Lemma length_toString_small (n : N) :
  (n < 100)%N -> 1 <= String.length (toString n) <= 2.
Proof.
  intros L.
  assert (A : forallb (fun k => let l := String.length (toString (N.of_nat k)) in
                                (1 <=? l)%nat && (l <=? 2)%nat) (seq 0 100) = true)
    by (vm_compute; reflexivity).
  rewrite forallb_forall in A.
  specialize (A (N.to_nat n)). rewrite Nnat.N2Nat.id in A.
  assert (I : In (N.to_nat n) (seq 0 100)) by (apply in_seq; lia).
  apply A in I. apply andb_true_iff in I as [I1 I2].
  apply Nat.leb_le in I1, I2. lia.
Qed.

Lemma append_split (a b x y : string) :
  String.length a = String.length b -> a ++ x = b ++ y -> a = b /\ x = y.
Proof.
  revert b. induction a as [|c a IH]; intros [|d b] L E; simpl in *; try discriminate.
  - auto.
  - injection E as -> E. injection L as L.
    destruct (IH b L E) as [-> ->]. auto.
Qed.

Lemma clock_parts (sec : N) :
  (sec / 3600 * 3600 + (sec mod 3600) / 60 * 60 + sec mod 60 = sec)%N
  /\ ((sec mod 3600) / 60 < 60)%N /\ (sec mod 60 < 60)%N.
Proof.
  assert (M : (sec mod 60 = (sec mod 3600) mod 60)%N).
  { rewrite (N.Div0.div_mod sec 3600) at 1.
    replace (3600 * (sec / 3600) + sec mod 3600)%N
      with (sec mod 3600 + (60 * (sec / 3600)) * 60)%N by lia.
    apply N.Div0.mod_add. }
  pose proof (N.Div0.div_mod sec 3600) as D1.
  pose proof (N.Div0.div_mod (sec mod 3600) 60) as D2.
  pose proof (N.mod_upper_bound sec 3600 ltac:(lia)) as U1.
  pose proof (N.mod_upper_bound sec 60 ltac:(lia)) as U2.
  split; [|split]; [lia| |lia].
  apply N.Div0.div_lt_upper_bound. lia.
Qed.

Lemma length_field (n : N) :
  (n < 60)%N -> String.length (padStart 2 "0" (toString n)) = 2.
Proof.
  intros L. rewrite length_pad.
  pose proof (length_toString_small n ltac:(lia)). lia.
Qed.

Lemma length_clock (s : N) :
  String.length (clock s) = Nat.max 2 (String.length (toString (s / 3600))) + 6.
Proof.
  destruct (clock_parts s) as (_ & M & T).
  unfold clock. rewrite length_append. cbn [append String.length].
  rewrite length_append. cbn [append String.length].
  rewrite (length_field _ M), (length_field _ T), length_pad. lia.
Qed.

(** X10.  The text of the uptime counter determines the seconds it
    stands for: two different counts of seconds never give the same
    text, so the display neither wraps nor repeats, and its three fields
    read back as the hours, minutes below 60 and seconds below 60 of the
    count. *)
Theorem clock_injective (a b : N) :
  (clock a = clock b -> a = b)
  /\ (a / 3600 * 3600 + (a mod 3600) / 60 * 60 + a mod 60 = a)%N
  /\ value (padStart 2 "0" (toString (a / 3600))) = Some (a / 3600)%N
  /\ value (padStart 2 "0" (toString ((a mod 3600) / 60))) = Some ((a mod 3600) / 60)%N
  /\ value (padStart 2 "0" (toString (a mod 60))) = Some (a mod 60)%N.
Proof.
  split; [|split; [apply clock_parts|repeat split; apply value_pad]].
  intros E.
  destruct (clock_parts a) as (Sa & Ma & Ta).
  destruct (clock_parts b) as (Sb & Mb & Tb).
  pose proof (f_equal String.length E) as LE.
  rewrite !length_clock in LE. rewrite <- !length_pad in LE.
  unfold clock in E.
  apply append_split in E as [EH E]; [|lia].
  cbn [append] in E. injection E as E.
  apply append_split in E as [EM E];
    [|now rewrite (length_field _ Ma), (length_field _ Mb)].
  cbn [append] in E. injection E as ES.
  apply (f_equal value) in EH, EM, ES.
  rewrite !value_pad in EH, EM, ES.
  injection EH as EH. injection EM as EM. injection ES as ES.
  rewrite <- Sa, <- Sb, EH, EM, ES. reflexivity.
Qed.

(** X11.  After [k] ticks of the interval the element shows the clock
    of [k] seconds.  The text has eight characters up to 99:59:59
    (359999 seconds); from 100 hours on the hours field keeps all its
    digits, [padStart] never cutting, and the text is longer. *)
Theorem clock_width (k : nat) (c : Counter) (s : N) :
  (sec c = 0%N ->
   sec (Nat.iter (S k) tick c) = N.of_nat (S k)
   /\ textContent (Nat.iter (S k) tick c) = clock (N.of_nat (S k)))
  /\ ((s < 360000)%N -> String.length (clock s) = 8)
  /\ ((360000 <= s)%N -> 9 <= String.length (clock s)).
Proof.
  split; [|split].
  - intros Z.
    assert (G : forall n, sec (Nat.iter n tick c) = N.of_nat n).
    { induction n as [|n IH]; [exact Z|].
      change (Nat.iter (S n) tick c) with (tick (Nat.iter n tick c)).
      unfold tick at 1. cbn [sec]. rewrite IH. lia. }
    split; [apply G|].
    change (Nat.iter (S k) tick c) with (tick (Nat.iter k tick c)).
    unfold tick at 1. cbn [textContent]. rewrite G.
    f_equal. lia.
  - intros L. rewrite length_clock.
    assert (H : (s / 3600 < 100)%N) by (apply N.Div0.div_lt_upper_bound; lia).
    pose proof (length_toString_small _ H). lia.
  - intros L. rewrite length_clock.
    assert (H : (100 <= s / 3600)%N) by (apply N.div_le_lower_bound; lia).
    pose proof (length_toString_large _ H). lia.
Qed.

End UptimeFacts.

(** ** [TextScramble] *)

Section ScrambleFacts.

Import Scramble.

Context {num : Type} `{JSNumber num} `{JSFloor num}.

Variable source : nat -> num.

Lemma same_plan_refl (q : list Item) : same_plan q q.
Proof. induction q; constructor; auto. Qed.

Lemma same_plan_trans (a b c : list Item) :
  same_plan a b -> same_plan b c -> same_plan a c.
Proof.
  intros AB. revert c. induction AB as [|x y a b (F & T & S & E) _ IH]; intros c BC.
  - inversion BC. constructor.
  - inversion BC as [|y' z b' c' (F' & T' & S' & E') BC']; subst.
    constructor; [repeat split; congruence|]. now apply IH.
Qed.

Lemma same_plan_deadline (q q' : list Item) :
  same_plan q q' -> deadline q = deadline q' /\ target_text q = target_text q'
                    /\ List.length q = List.length q'.
Proof.
  induction 1 as [|x y a b (F & T & S & E) _ (D & X & L)]; [auto|].
  unfold target_text in *. simpl. rewrite D, E, T, X, L. auto.
Qed.

Lemma deadline_nonneg (q : list Item) : (0 <= deadline q)%Z.
Proof. induction q as [|it q IH]; simpl; lia. Qed.

Lemma deadline_le (q : list Item) (f : Z) :
  (0 <= f)%Z -> ((deadline q <= f)%Z <-> Forall (fun it => (end_ it <= f)%Z) q).
Proof.
  intros F. induction q as [|it q IH]; simpl.
  - split; [constructor|lia].
  - split.
    + intros L. constructor; [lia|]. apply IH. lia.
    + intros A. inversion A as [|? ? E A']; subst. apply IH in A'. lia.
Qed.

(** One entry keeps its texts and frames, and counts as complete exactly
    when its last frame has come. *)
Lemma show_plan (f : Z) (it : Item) (k : nat) :
  let '(text, done, it', k') := show f it source k in
  from it' = from it /\ to it' = to it /\ start it' = start it /\ end_ it' = end_ it
  /\ done = (end_ it <=? f)%Z
  /\ ((end_ it <= f)%Z -> text = to it /\ it' = it /\ k' = k).
Proof.
  unfold show.
  destruct (end_ it <=? f)%Z eqn:E.
  - unfold ret. repeat split; auto.
  - apply Z.leb_gt in E.
    destruct (start it <=? f)%Z.
    + unfold bind at 1.
      destruct (match char it with
                | Some _ => _
                | None => pick
                end source k) as [c k'].
      unfold ret. repeat split; auto; lia.
    + unfold ret. repeat split; auto; lia.
Qed.

Lemma show_all_plan (f : Z) :
  forall q k,
    let '(output, complete, q', k') := show_all f q source k in
    same_plan q q'
    /\ complete <= List.length q
    /\ (complete = List.length q <-> Forall (fun it => (end_ it <= f)%Z) q)
    /\ (Forall (fun it => (end_ it <= f)%Z) q ->
        output = target_text q /\ q' = q /\ k' = k).
Proof.
  induction q as [|it q IH]; intros k.
  - simpl. unfold ret. repeat split; auto; constructor.
  - cbn [show_all]. unfold bind at 1.
    pose proof (show_plan f it k) as S.
    destruct (show f it source k) as [[[text done] it'] k1].
    destruct S as (F & T & St & E & D & C).
    unfold bind at 1. specialize (IH k1).
    destruct (show_all f q source k1) as [[[output complete] q'] k2].
    destruct IH as (P & L & A & B). unfold ret.
    split; [|split; [|split]].
    + constructor; [repeat split; congruence|exact P].
    + simpl. destruct done; lia.
    + simpl. split.
      * intros Eq. destruct done.
        -- constructor; [apply Z.leb_le; congruence|]. apply A. lia.
        -- lia.
      * intros G. inversion G as [|? ? G1 G2]; subst.
        apply A in G2. apply Z.leb_le in G1. rewrite G1. lia.
    + intros G. inversion G as [|? ? G1 G2]; subst.
      destruct (C G1) as (-> & -> & ->). destruct (B G2) as (-> & -> & ->).
      unfold target_text. simpl. auto.
Qed.

(** [update] at or after the deadline resolves on the target text;
    before it, it asks for one more frame and keeps the plan. *)
Lemma update_scrambler (s : Scrambler) (k : nat) :
  (0 <= frame s)%Z ->
  let '(s', k') := update s source k in
  same_plan (queue s) (queue s')
  /\ ((deadline (queue s) <= frame s)%Z ->
      s' = {| innerHTML := target_text (queue s); queue := queue s; frame := frame s;
              resolved := true; frameRequest := false |} /\ k' = k)
  /\ ((frame s < deadline (queue s))%Z ->
      frameRequest s' = true /\ frame s' = (frame s + 1)%Z).
Proof.
  intros F. unfold update. unfold bind.
  pose proof (show_all_plan (frame s) (queue s) k) as S.
  destruct (show_all (frame s) (queue s) source k) as [[[output complete] q'] k'].
  destruct S as (P & L & A & B).
  destruct (same_plan_deadline _ _ P) as (_ & _ & Len).
  destruct (Nat.eqb_spec complete (List.length q')) as [E|E]; unfold ret.
  - split; [exact P|]. split.
    + intros D. apply (deadline_le _ _ F) in D.
      destruct (B D) as (-> & -> & ->). auto.
    + intros D. exfalso. rewrite <- Len in E. apply A in E.
      apply (deadline_le _ _ F) in E. lia.
  - split; [exact P|]. split.
    + intros D. exfalso. apply E. rewrite <- Len. apply A.
      now apply (deadline_le _ _ F).
    + intros _. auto.
Qed.

(** The frames of an animation: none too few, and at the deadline the
    target text. *)
Lemma frames_run :
  forall d s k,
    (0 <= frame s)%Z -> deadline (queue s) = (frame s + Z.of_nat d)%Z ->
    (forall fuel, fuel <= d -> fst (frames fuel s source k) = None)
    /\ (forall extra, exists s' k',
          frames (S d + extra) s source k = (Some s', k')
          /\ resolved s' = true
          /\ frameRequest s' = false
          /\ innerHTML s' = target_text (queue s)
          /\ frame s' = deadline (queue s)
          /\ same_plan (queue s) (queue s')).
Proof.
  induction d as [|d IH]; intros s k F D.
  - split.
    + intros fuel L. assert (fuel = 0) by lia. subst. reflexivity.
    + intros extra. cbn [Nat.add frames]. unfold bind.
      pose proof (update_scrambler s k F) as U.
      destruct (update s source k) as [s' k'].
      destruct U as (_ & U & _). destruct (U ltac:(lia)) as (-> & ->).
      cbn [frameRequest]. unfold ret.
      eexists. eexists. split; [reflexivity|]. cbn.
      repeat split; auto; [lia|apply same_plan_refl].
  - pose proof (update_scrambler s k F) as U.
    destruct (update s source k) as [s1 k1] eqn:E.
    destruct U as (P & _ & U). destruct (U ltac:(lia)) as (R & Fr).
    destruct (same_plan_deadline _ _ P) as (Dl & Tx & _).
    assert (F1 : (0 <= frame s1)%Z) by lia.
    assert (D1 : deadline (queue s1) = (frame s1 + Z.of_nat d)%Z) by lia.
    destruct (IH s1 k1 F1 D1) as (N & G).
    split.
    + intros [|fuel] L; [reflexivity|].
      cbn [frames]. unfold bind. rewrite E, R. apply N. lia.
    + intros extra. destruct (G extra) as (s' & k' & Run & Res & Req & Txt & Frm & Pl).
      exists s', k'. cbn [Nat.add frames]. unfold bind. rewrite E, R.
      split; [exact Run|].
      repeat split; auto; try congruence.
      now apply (same_plan_trans _ _ _ P).
Qed.

Lemma skipn_cons_nth {A : Type} (l : list A) :
  forall i d, i < List.length l -> skipn i l = nth i l d :: skipn (S i) l.
Proof.
  induction l as [|a l IH]; intros i d L; simpl in L; [lia|].
  destruct i as [|i]; [reflexivity|].
  cbn [skipn nth]. apply IH. lia.
Qed.

Lemma join_from (newText : list jschar) :
  forall count i,
    List.length newText <= i + count ->
    join (map (at_or_empty newText) (seq i count)) = join (skipn i newText).
Proof.
  induction count as [|count IH]; intros i L.
  - simpl. rewrite skipn_all2 by lia. reflexivity.
  - cbn [seq map join fold_right].
    change (fold_right (fun c out => (c ++ out)%string) EmptyString
              (map (at_or_empty newText) (seq (S i) count)))
      with (join (map (at_or_empty newText) (seq (S i) count))).
    rewrite IH by lia. unfold at_or_empty.
    destruct (le_lt_dec (List.length newText) i) as [G|G].
    + rewrite nth_overflow by lia. rewrite !skipn_all2 by lia. reflexivity.
    + now rewrite (skipn_cons_nth newText i EmptyString G).
Qed.

Lemma plan_target (oldText newText : list jschar) :
  forall count i k,
    map to (fst (plan count i oldText newText source k))
    = map (at_or_empty newText) (seq i count).
Proof.
  induction count as [|count IH]; intros i k; [reflexivity|].
  cbn [plan]. unfold bind, Math_random, ret. cbn.
  specialize (IH (S i) (S (S k))).
  destruct (plan count (S i) oldText newText source (S (S k))) as [rest k'].
  simpl in *. now rewrite IH.
Qed.

Lemma setText_target (oldText newText : list jschar) (s : Scrambler) (k : nat) :
  let s1 := fst (setText oldText newText s source k) in
  target_text (queue s1) = join newText /\ frame s1 = 0%Z.
Proof.
  unfold setText, bind, ret.
  pose proof (plan_target oldText newText
                (Nat.max (List.length oldText) (List.length newText)) 0 k) as P.
  destruct (plan _ 0 oldText newText source k) as [q k']. simpl in *.
  unfold target_text. rewrite P. split; [|reflexivity].
  rewrite join_from by lia. reflexivity.
Qed.

(** X12.  In every number model a scramble takes exactly one call of
    [update] more than the largest [end] of its queue (one call for an
    empty text): with fewer it has not resolved, and with that many it
    resolves, asks for no further frame, and the string it assigned last
    to [innerHTML] is the new text, character by character.  When the
    new text is plain (no [<], [&], carriage return or null character)
    that is the text the element then holds; a text with markup in it is
    parsed by the browser and is not shown as written. *)
Theorem scramble_ends_on_text (oldText newText : list jschar) (s : Scrambler) (k : nat) :
  let s1 := fst (setText oldText newText s source k) in
  let k1 := snd (setText oldText newText s source k) in
  let d := Z.to_nat (deadline (queue s1)) in
  (forall fuel, fuel <= d -> fst (frames fuel s1 source k1) = None)
  /\ exists s' k',
      frames (S d) s1 source k1 = (Some s', k')
      /\ resolved s' = true
      /\ frameRequest s' = false
      /\ innerHTML s' = join newText
      /\ frame s' = deadline (queue s1)
      /\ (Markup.plain (join newText) = true -> textContent s' = Some (join newText)).
Proof.
  intros s1 k1 d.
  destruct (setText_target oldText newText s k) as (T & F). fold s1 in T, F.
  assert (D : deadline (queue s1) = (frame s1 + Z.of_nat d)%Z).
  { subst d. rewrite F. pose proof (deadline_nonneg (queue s1)). lia. }
  destruct (frames_run d s1 k1 ltac:(lia) D) as (N & G).
  split; [exact N|].
  destruct (G 0) as (s' & k' & Run & Res & Req & Txt & Frm & _).
  exists s', k'. rewrite Nat.add_0_r in Run.
  assert (I : innerHTML s' = join newText) by congruence.
  split; [exact Run|]. split; [exact Res|]. split; [exact Req|]. split; [exact I|].
  split; [exact Frm|].
  intros P. unfold textContent, Markup.parsed. now rewrite I, P.
Qed.

End ScrambleFacts.

Section ScrambleIdeal.

Import Scramble Surface.

Variable source : nat -> R.
Hypothesis unit : unit_source source.

Lemma floor_of_draw (r : R) (n : Z) :
  (0 <= r < 1)%R -> (0 < n)%Z ->
  (0 <= Math_floor (mul r (int n)) < n)%Z.
Proof.
  intros [R0 R1] N. unfold int; simpl.
  assert (P : (0 < IZR n)%R) by (apply (IZR_lt 0); exact N).
  destruct (base_Int_part (r * (IZR n / 1))) as [L U].
  split.
  - assert (A : (IZR (-1) < IZR (Int_part (r * (IZR n / 1))))%R) by (simpl; nra).
    apply lt_IZR in A. lia.
  - apply lt_IZR. nra.
Qed.

Lemma plan_frames (oldText newText : list jschar) :
  forall count i k,
    Forall (fun it => (0 <= start it <= 9)%Z /\ (start it <= end_ it <= start it + 9)%Z)
           (fst (plan count i oldText newText source k)).
Proof.
  induction count as [|count IH]; intros i k; [constructor|].
  cbn [plan]. unfold bind, Math_random, ret. cbn.
  specialize (IH (S i) (S (S k))).
  destruct (plan count (S i) oldText newText source (S (S k))) as [rest k'].
  simpl in *. constructor; [|exact IH]. simpl.
  pose proof (floor_of_draw (source k) 10 (unit k) ltac:(lia)) as A.
  pose proof (floor_of_draw (source (S k)) 10 (unit (S k)) ltac:(lia)) as B.
  unfold int in A, B. simpl in A, B. lia.
Qed.

Lemma deadline_bound (q : list Item) (b : Z) :
  (0 <= b)%Z -> Forall (fun it => (end_ it <= b)%Z) q -> (deadline q <= b)%Z.
Proof. intros B A. now apply deadline_le. Qed.

Lemma pick_char (k : nat) :
  exists c, pick source k = (Some c, S k) /\ In c chars.
Proof.
  unfold pick, bind, Math_random, ret.
  pose proof (floor_of_draw (source k) 26 (unit k) ltac:(lia)) as [L U].
  assert (B : (Math_floor (mul (source k) (int 26)) <? 0)%Z = false)
    by (apply Z.ltb_ge; exact L).
  rewrite B.
  destruct (nth_error chars (Z.to_nat (Math_floor (mul (source k) (int 26))))) as [c|] eqn:N.
  - exists c. split; [reflexivity|]. now apply nth_error_In in N.
  - apply nth_error_None in N. change (List.length chars) with 26 in N. lia.
Qed.

End ScrambleIdeal.

(** X13.  With draws in [[0,1)] every entry starts at a frame from 0 to
    9 and ends at most 9 frames later, so a scramble resolves within 19
    calls of [update], the string assigned last to [innerHTML] being the
    new text, which is the text the element then holds when the new
    text is plain; and a scrambled character is always one of the 26 of
    [chars], never the text [undefined]. *)
Theorem scramble_within_19 (source : nat -> R) (oldText newText : list Scramble.jschar)
    (s : Scramble.Scrambler) (k : nat) :
  Surface.unit_source source ->
  (exists s' k',
      Scramble.scramble 19 oldText newText s source k = (Some s', k')
      /\ Scramble.resolved s' = true
      /\ Scramble.innerHTML s' = Scramble.join newText
      /\ (0 <= Scramble.frame s' <= 18)%Z
      /\ (Markup.plain (Scramble.join newText) = true ->
          Scramble.textContent s' = Some (Scramble.join newText)))
  /\ (forall k, exists c, Scramble.pick source k = (Some c, S k) /\ In c Scramble.chars).
Proof.
  intros U. split; [|intros k'; now apply pick_char].
  unfold Scramble.scramble, bind.
  destruct (setText_target source oldText newText s k) as (T & F).
  assert (B : (Scramble.deadline
                 (Scramble.queue (fst (Scramble.setText oldText newText s source k)))
               <= 18)%Z).
  { apply deadline_bound; [lia|].
    unfold Scramble.setText, bind, ret.
    pose proof (plan_frames source U oldText newText
                  (Nat.max (List.length oldText) (List.length newText)) 0 k) as P.
    destruct (Scramble.plan _ 0 oldText newText source k) as [q k']. simpl in *.
    eapply Forall_impl; [|exact P]. simpl. intros it. lia. }
  destruct (Scramble.setText oldText newText s source k) as [s1 k1].
  cbn [fst snd] in T, F, B.
  pose proof (deadline_nonneg (Scramble.queue s1)) as N.
  assert (F0 : (0 <= Scramble.frame s1)%Z) by (rewrite F; lia).
  assert (D : Scramble.deadline (Scramble.queue s1)
              = (Scramble.frame s1
                 + Z.of_nat (Z.to_nat (Scramble.deadline (Scramble.queue s1))))%Z)
    by (rewrite F; lia).
  destruct (frames_run source (Z.to_nat (Scramble.deadline (Scramble.queue s1))) s1 k1
              F0 D) as (_ & G).
  destruct (G (18 - Z.to_nat (Scramble.deadline (Scramble.queue s1))))
    as (s' & k' & Run & Res & _ & Txt & Frm & _).
  exists s', k'.
  replace 19 with (S (Z.to_nat (Scramble.deadline (Scramble.queue s1)))
                   + (18 - Z.to_nat (Scramble.deadline (Scramble.queue s1)))) by lia.
  assert (I : Scramble.innerHTML s' = Scramble.join newText) by congruence.
  split; [exact Run|]. split; [exact Res|]. split; [exact I|].
  split; [lia|].
  intros P. unfold Scramble.textContent, Markup.parsed. now rewrite I, P.
Qed.

Lemma scramble_within_19_witness :
  Surface.unit_source Samples.steady
  /\ exists s' k',
      Scramble.scramble (num:=R) 19 [] ["o"%string; "k"%string]
        {| Scramble.innerHTML := ""; Scramble.queue := []; Scramble.frame := 0;
           Scramble.resolved := false; Scramble.frameRequest := false |}
        Samples.steady 0 = (Some s', k')
      /\ Scramble.resolved s' = true
      /\ Scramble.innerHTML s' = "ok"%string
      /\ (0 <= Scramble.frame s' <= 18)%Z
      /\ Scramble.textContent s' = Some "ok"%string.
Proof.
  split; [exact steady_unit|].
  destruct (proj1 (scramble_within_19 Samples.steady [] ["o"%string; "k"%string]
                     {| Scramble.innerHTML := ""; Scramble.queue := [];
                        Scramble.frame := 0;
                        Scramble.resolved := false; Scramble.frameRequest := false |}
                     0 steady_unit))
    as (s' & k' & Run & Res & Txt & Frm & Shown).
  exists s', k'. split; [exact Run|]. split; [exact Res|]. split; [exact Txt|].
  split; [exact Frm|]. exact (Shown eq_refl).
Defined.

(** ** The cursor blob over the real numbers *)

Section CursorIdeal.

Import Cursor CursorWords.
Local Open Scope R_scope.

Lemma frame_far (st : @State R) :
  isMoving st = true -> ~ near st ->
  animateCursor st
  = {| mouseX := mouseX st; mouseY := mouseY st;
       cursorX := cursorX st + (mouseX st - cursorX st) * (15 / 100);
       cursorY := cursorY st + (mouseY st - cursorY st) * (15 / 100);
       isMoving := true;
       wrapper := wrapper st;
       blob := Some (cursorX st + (mouseX st - cursorX st) * (15 / 100) - mouseX st,
                     cursorY st + (mouseY st - cursorY st) * (15 / 100) - mouseY st) |}.
Proof.
  intros M N. unfold animateCursor. rewrite M. simpl.
  assert (B : Rltb (1 / 10) (Rabs (mouseX st - cursorX st))
              || Rltb (1 / 10) (Rabs (mouseY st - cursorY st)) = true).
  { apply orb_true_iff.
    destruct (Rlt_dec (1 / 10) (Rabs (mouseX st - cursorX st))) as [L|L];
      [left; now apply Rltb_true|].
    destruct (Rlt_dec (1 / 10) (Rabs (mouseY st - cursorY st))) as [L'|L'];
      [right; now apply Rltb_true|].
    exfalso. apply N. unfold near. lra. }
  now rewrite B.
Qed.

Lemma frame_near (st : @State R) :
  isMoving st = true -> near st ->
  animateCursor st
  = {| mouseX := mouseX st; mouseY := mouseY st;
       cursorX := cursorX st; cursorY := cursorY st;
       isMoving := false; wrapper := wrapper st; blob := blob st |}.
Proof.
  intros M [Nx Ny]. unfold animateCursor. rewrite M. simpl.
  assert (Ax : Rabs (mouseX st - cursorX st) <= 1 / 10) by lra.
  assert (Ay : Rabs (mouseY st - cursorY st) <= 1 / 10) by lra.
  now rewrite (Rltb_false _ _ Ax), (Rltb_false _ _ Ay).
Qed.

Lemma frame_idle (st : @State R) :
  isMoving st = false -> Rabs (mouseX st - cursorX st) <= 1 -> animateCursor st = st.
Proof.
  intros M N. unfold animateCursor. rewrite M. unfold int; simpl.
  assert (Ax : Rabs (mouseX st - cursorX st) <= 1 / 1) by lra.
  now rewrite (Rltb_false _ _ Ax).
Qed.

Lemma near_dec (st : @State R) : near st \/ ~ near st.
Proof.
  unfold near.
  destruct (Rle_dec (Rabs (mouseX st - cursorX st)) 0.1);
    destruct (Rle_dec (Rabs (mouseY st - cursorY st)) 0.1); tauto.
Qed.

(** X14.  While the blob is moving and more than a tenth of a unit from
    the pointer on some axis, a frame takes it 15% of the way: the
    distance left on each axis is 0.85 of what it was, with the same
    sign, so the blob closes in and never passes the pointer; the
    translation written to the blob is the distance left, negated. *)
Theorem frame_closes_in (st : @State R) :
  isMoving st = true -> ~ near st ->
  let st' := animateCursor st in
  mouseX st' - cursorX st' = 0.85 * (mouseX st - cursorX st)
  /\ mouseY st' - cursorY st' = 0.85 * (mouseY st - cursorY st)
  /\ blob st' = Some (cursorX st' - mouseX st', cursorY st' - mouseY st')
  /\ isMoving st' = true.
Proof.
  intros M N st'. subst st'. rewrite (frame_far st M N). simpl.
  repeat split; lra.
Qed.

Lemma settle_within (N : nat) :
  forall st,
    isMoving st = true ->
    0.85 ^ N * Rabs (mouseX st - cursorX st) <= 0.1 ->
    0.85 ^ N * Rabs (mouseY st - cursorY st) <= 0.1 ->
    exists n, (n <= S N)%nat
      /\ isMoving (Nat.iter n animateCursor st) = false
      /\ near (Nat.iter n animateCursor st)
      /\ mouseX (Nat.iter n animateCursor st) = mouseX st
      /\ mouseY (Nat.iter n animateCursor st) = mouseY st.
Proof.
  induction N as [|N IH]; intros st M Hx Hy.
  - exists 1%nat. simpl in *.
    assert (Nr : near st) by (unfold near; lra).
    rewrite (frame_near st M Nr). simpl. repeat split; auto; apply Nr.
  - destruct (near_dec st) as [Nr|Nr].
    + exists 1%nat. simpl. rewrite (frame_near st M Nr). simpl.
      repeat split; auto; try lia; apply Nr.
    + destruct (IH (animateCursor st)) as (n & Ln & Mv & Nn & Mx & My).
      * now rewrite (frame_far st M Nr).
      * rewrite (frame_far st M Nr). simpl.
        replace (mouseX st - (cursorX st + (mouseX st - cursorX st) * (15 / 100)))
          with (0.85 * (mouseX st - cursorX st)) by lra.
        rewrite Rabs_mult, (Rabs_pos_eq 0.85) by lra.
        simpl in Hx. lra.
      * rewrite (frame_far st M Nr). simpl.
        replace (mouseY st - (cursorY st + (mouseY st - cursorY st) * (15 / 100)))
          with (0.85 * (mouseY st - cursorY st)) by lra.
        rewrite Rabs_mult, (Rabs_pos_eq 0.85) by lra.
        simpl in Hy. lra.
      * exists (S n). rewrite Nat.iter_succ_r.
        split; [lia|]. split; [exact Mv|]. split; [exact Nn|]. split.
        -- rewrite Mx. now rewrite (frame_far st M Nr).
        -- rewrite My. now rewrite (frame_far st M Nr).
Qed.

Lemma power_small (g : R) : 0 <= g -> exists N, 0.85 ^ N * g <= 0.1.
Proof.
  intros G.
  destruct (pow_lt_1_zero 0.85 ltac:(rewrite Rabs_pos_eq; lra) (0.1 / (g + 1))
              ltac:(apply Rdiv_lt_0_compat; lra)) as [N P].
  exists N. specialize (P N (le_n N)).
  rewrite Rabs_pos_eq in P by (apply pow_le; lra).
  assert (Q : 0.85 ^ N * (g + 1) < 0.1).
  { apply (Rmult_lt_compat_r (g + 1)) in P; [|lra].
    unfold Rdiv in P. rewrite Rmult_assoc, Rinv_l in P by lra. lra. }
  assert (Z : 0 <= 0.85 ^ N) by (apply pow_le; lra).
  nra.
Qed.

(** X15.  With the pointer at rest the blob comes to rest too: from any
    moving state some number of frames leaves [isMoving] false with the
    blob within a tenth of a unit of the pointer on both axes, the
    pointer where it was, and every later frame changes nothing. *)
Theorem blob_settles (st : @State R) :
  isMoving st = true ->
  exists n,
    let st' := Nat.iter n animateCursor st in
    isMoving st' = false
    /\ near st'
    /\ mouseX st' = mouseX st /\ mouseY st' = mouseY st
    /\ forall m, Nat.iter m animateCursor st' = st'.
Proof.
  intros M.
  destruct (power_small (Rmax (Rabs (mouseX st - cursorX st))
                              (Rabs (mouseY st - cursorY st)))) as [N P].
  { apply Rle_trans with (Rabs (mouseX st - cursorX st));
      [apply Rabs_pos|apply Rmax_l]. }
  assert (Z : 0 <= 0.85 ^ N) by (apply pow_le; lra).
  pose proof (Rmax_l (Rabs (mouseX st - cursorX st)) (Rabs (mouseY st - cursorY st))).
  pose proof (Rmax_r (Rabs (mouseX st - cursorX st)) (Rabs (mouseY st - cursorY st))).
  destruct (settle_within N st M ltac:(nra) ltac:(nra)) as (n & _ & Mv & Nr & Mx & My).
  exists n. cbv zeta. repeat split; auto; try apply Nr.
  intros m. induction m as [|m IH]; [reflexivity|].
  rewrite Nat.iter_succ, IH. apply frame_idle; [exact Mv|].
  destruct Nr as [Nx _]. lra.
Qed.

Lemma blob_settles_witness :
  exists n,
    isMoving (Nat.iter n animateCursor (mousemove 300 200 (start (num:=R)))) = false.
Proof.
  destruct (blob_settles (mousemove 300 200 start) eq_refl) as (n & S & _).
  exists n. exact S.
Defined.

Lemma frame_closes_in_witness :
  mouseX (animateCursor (mousemove 300 200 (start (num:=R))))
  - cursorX (animateCursor (mousemove 300 200 start))
  = 0.85 * (300 - int 0).
Proof.
  apply (frame_closes_in (mousemove 300 200 start) eq_refl).
  unfold near, int; simpl. intros [A _].
  rewrite Rabs_pos_eq in A; lra.
Defined.

(** ** The idle check of the cursor loop *)

Lemma handle_rested (st : @State R) (e : Event) : rested st -> rested (handle st e).
Proof.
  intros Rs. destruct e as [x y|]; simpl.
  - unfold rested, mousemove; simpl. discriminate.
  - destruct (isMoving st) eqn:M.
    + destruct (near_dec st) as [Nr|Nr].
      * rewrite (frame_near st M Nr). intros _. exact Nr.
      * rewrite (frame_far st M Nr). unfold rested; simpl. discriminate.
    + specialize (Rs M). rewrite frame_idle; auto.
      * intros _. exact Rs.
      * destruct Rs as [Nx _]. lra.
Qed.

(** X16.  From the start, through any moves of the pointer and frames,
    the loop is idle only with the blob within a tenth of a unit of the
    pointer; so the drift check of an idle frame
    ([Math.abs(mouseX - cursorX) > 1]) never fires, and an idle frame
    changes nothing. *)
Theorem idle_check_never_fires (evs : list (@Event R)) :
  let st := run start evs in
  (isMoving st = false -> near st /\ animateCursor st = st).
Proof.
  intros st.
  assert (Rs : rested st).
  { subst st. unfold run.
    assert (G : forall s, rested s -> rested (fold_left handle evs s)).
    { induction evs as [|e evs IH]; intros s Rs; simpl; [exact Rs|].
      apply IH. now apply handle_rested. }
    apply G. unfold rested, near, start, int; simpl. intros _.
    replace (0 / 1 - 0 / 1) with 0 by lra. rewrite Rabs_R0. lra. }
  intros M. split; [now apply Rs|].
  apply frame_idle; [exact M|]. destruct (Rs M) as [Nx _]. lra.
Qed.

Lemma idle_check_never_fires_witness :
  near (run (num:=R) start []) /\ animateCursor (run (num:=R) start []) = run start [].
Proof.
  exact (idle_check_never_fires [] eq_refl).
Defined.

End CursorIdeal.

(** ** The globe over the real numbers: particles and frames *)

Section GlobeFrames.

Import Globe GlobeFrame GlobeWords.
Local Open Scope R_scope.

Lemma unit_circle (a : R) : sin a * sin a + cos a * cos a = 1.
Proof. pose proof (sin2_cos2 a) as S. unfold Rsqr in S. exact S. Qed.

Lemma particle_on_sphere (width : R) (i : nat) :
  on_sphere (radius_of width) (particle width i).
Proof.
  unfold on_sphere, particle. cbn [x y z].
  set (theta := Math_acos _). set (phi := mul _ theta). set (r := radius_of width).
  change (r * sin theta * cos phi * (r * sin theta * cos phi)
          + r * sin theta * sin phi * (r * sin theta * sin phi)
          + r * cos theta * (r * cos theta) = r * r).
  pose proof (unit_circle theta) as T. pose proof (unit_circle phi) as P.
  replace (r * sin theta * cos phi * (r * sin theta * cos phi)
           + r * sin theta * sin phi * (r * sin theta * sin phi)
           + r * cos theta * (r * cos theta))
    with (r * r * (sin theta * sin theta * (sin phi * sin phi + cos phi * cos phi)
                   + cos theta * cos theta)) by ring.
  rewrite P, Rmult_1_r, T. ring.
Qed.

(** A rotation in a plane keeps the sum of squares. *)
Lemma planar (a b c s : R) :
  s * s + c * c = 1 ->
  (a * c - b * s) * (a * c - b * s) + (b * c + a * s) * (b * c + a * s)
  = a * a + b * b.
Proof.
  intros U.
  replace (a * a + b * b) with ((a * a + b * b) * (s * s + c * c))
    by (rewrite U; ring).
  ring.
Qed.

Lemma rotate_on_sphere (r : R) (p : @Particle R) :
  on_sphere r p -> on_sphere r (rotate p).
Proof.
  unfold on_sphere, rotate. cbn [x y z]. intros S.
  set (x1 := sub (mul (x p) (Math_cos angleY)) (mul (z p) (Math_sin angleY))).
  set (z1 := add (mul (z p) (Math_cos angleY)) (mul (x p) (Math_sin angleY))).
  pose proof (planar (x p) (z p) (cos angleY) (sin angleY) (unit_circle angleY)) as A.
  pose proof (planar (y p) z1 (cos angleX) (sin angleX) (unit_circle angleX)) as B.
  change (x1 * x1 + z1 * z1 = x p * x p + z p * z p) in A.
  change (x1 * x1
          + (y p * cos angleX - z1 * sin angleX) * (y p * cos angleX - z1 * sin angleX)
          + (z1 * cos angleX + y p * sin angleX) * (z1 * cos angleX + y p * sin angleX)
          = r * r).
  lra.
Qed.

(** The outer loop of [draw] rotates every particle once. *)
Lemma turn_loop (radius width height : R) :
  forall todo pre path,
    fst (for_from (List.length todo) (List.length pre) (turn radius width height)
                  (pre ++ todo, path))
    = pre ++ map rotate todo.
Proof.
  induction todo as [|p0 todo IH]; intros pre path; [reflexivity|].
  cbn [List.length for_from map]. unfold turn at 2.
  rewrite nth_error_middle, set_nth_app.
  destruct (project width height (rotate p0)) as [px py].
  rewrite (app_cons_snoc pre (rotate p0) todo).
  pose proof (IH (pre ++ [rotate p0])) as IH'.
  rewrite length_snoc in IH'. rewrite IH'.
  now rewrite <- app_assoc.
Qed.

Lemma draw_rotates (sc : @Scope R) (w h radius : R) (ps : list (@Particle R)) :
  width sc = Some w -> height sc = Some h -> ctx sc = true ->
  exists path, draw sc true radius ps = Drawn (map rotate ps) path.
Proof.
  intros W Hh C. unfold draw, for_range. rewrite C, W, Hh. cbn [negb].
  rewrite Nat.sub_0_r.
  pose proof (turn_loop radius w h ps [] []) as T. simpl in T.
  destruct (for_from _ 0 (turn radius w h) (ps, [])) as [ps' path] eqn:E.
  simpl in T. subst ps'. now exists path.
Qed.

Lemma spin_on_sphere (sc : @Scope R) (w h r radius : R) :
  width sc = Some w -> height sc = Some h -> ctx sc = true ->
  forall n ps,
    Forall (on_sphere r) ps ->
    Forall (on_sphere r) (spin n sc radius ps)
    /\ List.length (spin n sc radius ps) = List.length ps.
Proof.
  intros W Hh C. induction n as [|n IH]; intros ps F; [auto|].
  cbn [spin]. destruct (draw_rotates sc w h radius ps W Hh C) as [path ->].
  destruct (IH (map rotate ps)) as [G L].
  - apply Forall_map. eapply Forall_impl; [|exact F].
    intros p. apply rotate_on_sphere.
  - split; [exact G|]. now rewrite L, length_map.
Qed.

(** X17.  On a page that defines the globals [width], [height] and
    [ctx], with [#globe-canvas] in the document, [init3DGlobe] builds 30
    particles on the sphere of radius [width * 0.35] about the centre
    and draws a first frame, and every frame of [draw] rotates each
    particle on that sphere.  So for a [width] below 300/0.35 (about
    857) the divisor [300 + p.z] of the projection stays positive in
    every frame, at least [300 - radius]: the scale is finite and the
    picture is never mirrored.  (Over the real numbers.) *)
Theorem globe_stays_on_sphere (sc : @Scope R) (w h : R) (n : nat) :
  width sc = Some w -> height sc = Some h -> ctx sc = true ->
  0 <= w -> radius_of w < 300 ->
  (exists path,
      init3DGlobe sc true true
      = Started (radius_of w) (particles w) (Drawn (map rotate (particles w)) path))
  /\ List.length (spin n sc (radius_of w) (particles w)) = 30%nat
  /\ Forall (fun p => on_sphere (radius_of w) p
                      /\ Rabs (z p) <= radius_of w
                      /\ 300 - radius_of w <= 300 + z p
                      /\ 0 < 300 + z p)
       (spin n sc (radius_of w) (particles w)).
Proof.
  intros W Hh C W0 Rd.
  assert (R0 : 0 <= radius_of w) by (unfold radius_of; simpl; nra).
  destruct (spin_on_sphere sc w h (radius_of w) (radius_of w) W Hh C n (particles w))
    as [F L].
  { unfold particles. apply Forall_map, Forall_forall. intros i _.
    apply particle_on_sphere. }
  split; [|split].
  - destruct (draw_rotates sc w h (radius_of w) (particles w) W Hh C) as [path D].
    exists path. unfold init3DGlobe. rewrite W, Hh. cbn [negb]. now rewrite D.
  - rewrite L. unfold particles. now rewrite length_map, length_seq.
  - eapply Forall_impl; [|exact F]. intros p S.
    assert (Z : - radius_of w <= z p <= radius_of w).
    { unfold on_sphere in S.
      pose proof (Rle_0_sqr (x p)). pose proof (Rle_0_sqr (y p)). unfold Rsqr in *.
      split; nra. }
    repeat split; auto; try lra. now apply Rabs_le.
Qed.

Lemma globe_stays_on_sphere_witness :
  0 <= 800 /\ radius_of 800 < 300
  /\ List.length (spin (num:=R) 5 {| width := Some 800; height := Some 600; ctx := true |}
                    (radius_of 800) (particles 800)) = 30%nat.
Proof.
  assert (W : 0 <= 800) by lra.
  assert (Rd : radius_of 800 < 300) by (unfold radius_of; simpl; lra).
  split; [exact W|]. split; [exact Rd|].
  exact (proj1 (proj2 (globe_stays_on_sphere
                         {| width := Some 800; height := Some 600; ctx := true |}
                         800 600 5 eq_refl eq_refl eq_refl W Rd))).
Defined.

End GlobeFrames.

Section GlobeScope.

Import Globe GlobeFrame.
Local Open Scope string_scope.

Context {num : Type} `{JSNumber num} `{JSMath num}.


End GlobeScope.

(** ** The nebula background: more on frames and runs *)

Section NebulaFrameMore.

Import Nebula NebulaWords.

Context {num : Type} `{JSNumber num}.

Variable source : nat -> num.

Lemma dots_app (a b : list (@Event num)) : dots (a ++ b) = dots a ++ dots b.
Proof. apply flat_map_app. Qed.

Lemma dots_pair_events (i : nat) (p1 : Node) :
  forall rest j, dots (pair_events i p1 j rest) = [].
Proof. induction rest as [|p2 rest IH]; intros j; simpl; auto. Qed.

Lemma sweep_dots (w h : num) :
  forall todo i k,
    dots (snd (sweep source w h i todo k))
    = combine (seq i (List.length todo)) (fst (fst (sweep source w h i todo k))).
Proof.
  induction todo as [|p rest IH]; intros i k; simpl; [reflexivity|].
  destruct (update w h p source k) as [p1 k1].
  specialize (IH (S i) k1).
  destruct (sweep source w h (S i) rest k1) as [[rest' k2] evs]; simpl in *.
  change (dots (Dot i p1 :: pair_events i p1 (S i) rest ++ evs))
    with ((i, p1) :: dots (pair_events i p1 (S i) rest ++ evs)).
  now rewrite dots_app, dots_pair_events, IH.
Qed.

Lemma all_pairs_length :
  forall n i, 2 * List.length (all_pairs i n) = n * (n - 1).
Proof.
  induction n as [|n IH]; intros i; [reflexivity|].
  cbn [all_pairs]. rewrite length_app, length_map, length_seq.
  specialize (IH (S i)). destruct n; simpl in *; lia.
Qed.

Lemma sweep_cursor (w h : num) :
  forall todo i k,
    snd (fst (sweep source w h i todo k))
    = k + 6 * List.length (filter (fun p => outside w h (advance p)) todo).
Proof.
  induction todo as [|p rest IH]; intros i k; simpl; [lia|].
  rewrite update_cases.
  destruct (outside w h (advance p)).
  - specialize (IH (S i) (k + 6)).
    destruct (sweep source w h (S i) rest (k + 6)) as [[rest' k2] evs]; simpl in *.
    lia.
  - specialize (IH (S i) k).
    destruct (sweep source w h (S i) rest k) as [[rest' k2] evs]; simpl in *.
    lia.
Qed.

Lemma sweep_inside (w h : num) :
  forall todo i k,
    Forall (fun p => outside w h (advance p) = false) todo ->
    fst (sweep source w h i todo k) = (map advance todo, k).
Proof.
  induction todo as [|p rest IH]; intros i k F; simpl; [reflexivity|].
  inversion F as [|? ? O F']; subst.
  rewrite update_cases, O.
  specialize (IH (S i) k F').
  destruct (sweep source w h (S i) rest k) as [[rest' k2] evs]; simpl in *.
  now injection IH as -> ->.
Qed.

(** X18.  A frame clears the canvas first and then draws every node
    exactly once, in index order, where the frame has put it; it makes
    [n (n - 1) / 2] comparisons for [n] nodes (none for an empty field or
    a single node). *)
Theorem frame_draws_each_node (st : State) :
  hd_error (snd (animate source st)) = Some (Clear (width st) (height st))
  /\ dots (snd (animate source st))
     = combine (seq 0 (List.length (nodes st))) (nodes (tick source st))
  /\ List.length (dots (snd (animate source st))) = List.length (nodes st)
  /\ 2 * List.length (examined (snd (animate source st)))
     = List.length (nodes st) * (List.length (nodes st) - 1).
Proof.
  unfold tick. rewrite animate_sweep.
  pose proof (sweep_dots (width st) (height st) (nodes st) 0 (cursor st)) as D.
  pose proof (examined_sweep source (width st) (height st) (nodes st) 0 (cursor st)) as E.
  pose proof (sweep_length source (width st) (height st) (nodes st) 0 (cursor st)) as L.
  destruct (sweep source (width st) (height st) 0 (nodes st) (cursor st))
    as [[ns k] evs]; simpl in *.
  split; [reflexivity|].
  change (dots (Clear (width st) (height st) :: evs)) with (dots evs).
  change (examined (Clear (width st) (height st) :: evs)) with (examined evs).
  rewrite D, E. split; [reflexivity|]. split.
  - rewrite length_combine, length_seq, L. lia.
  - apply all_pairs_length.
Qed.

(** X19.  A frame draws six random numbers for every node that its own
    step takes off the surface, by the test of the code, and no other:
    the cursor of the random source advances by six times their number. *)
Theorem frame_draws_six_per_reset (st : State) :
  cursor (tick source st)
  = cursor st
    + 6 * List.length
            (filter (fun p => outside (width st) (height st) (advance p)) (nodes st)).
Proof.
  unfold tick. rewrite animate_sweep.
  pose proof (sweep_cursor (width st) (height st) (nodes st) 0 (cursor st)) as C.
  destruct (sweep source (width st) (height st) 0 (nodes st) (cursor st))
    as [[ns k] evs]; simpl in *.
  exact C.
Qed.

(** X20.  A frame in which no node leaves the surface only moves the
    nodes: each by its speed, with speed, size and opacity as they were,
    and the random source is not read. *)
Theorem frame_without_reset (st : State) :
  Forall (fun p => outside (width st) (height st) (advance p) = false) (nodes st) ->
  nodes (tick source st) = map advance (nodes st)
  /\ cursor (tick source st) = cursor st.
Proof.
  intros F. unfold tick. rewrite animate_sweep.
  pose proof (sweep_inside (width st) (height st) (nodes st) 0 (cursor st) F) as I.
  destruct (sweep source (width st) (height st) 0 (nodes st) (cursor st))
    as [[ns k] evs]; simpl in *.
  now injection I as -> ->.
Qed.

End NebulaFrameMore.

Section NebulaRuns.

Import Nebula NebulaWords.

Context {num : Type} `{JSNumber num}.

Variable source : nat -> num.

Lemma made_by_fresh (w h : num) (lo hi k : nat) :
  lo <= k -> k + 6 <= hi -> made_by source lo hi (fresh source w h k).
Proof. intros L U. exists k. split; [exact L|]. split; [exact U|]. repeat split. Qed.

Lemma made_by_later (lo hi hi' : nat) (p : Node) :
  hi <= hi' -> made_by source lo hi p -> made_by source lo hi' p.
Proof.
  intros L (k & A & B & C). exists k. split; [exact A|]. split; [lia|exact C].
Qed.

Lemma made_by_update (w h : num) (lo k : nat) (p : Node) :
  lo <= k -> made_by source lo k p ->
  made_by source lo (snd (update w h p source k)) (fst (update w h p source k)).
Proof.
  intros L M. rewrite update_cases. destruct (outside w h (advance p)); simpl.
  - apply made_by_fresh; lia.
  - exact M.
Qed.

Lemma made_by_sweep (w h : num) (lo : nat) :
  forall todo i k,
    lo <= k -> Forall (made_by source lo k) todo ->
    Forall (made_by source lo (snd (fst (sweep source w h i todo k))))
           (fst (fst (sweep source w h i todo k))).
Proof.
  induction todo as [|p rest IH]; intros i k L F; simpl; [constructor|].
  inversion F as [|? ? Mp F']; subst.
  pose proof (made_by_update w h lo k p L Mp) as M1.
  pose proof (update_cursor_le source w h p k) as L1.
  destruct (update w h p source k) as [p1 k1]. simpl in M1, L1.
  pose proof (sweep_cursor_le source w h rest (S i) k1) as L2.
  assert (F1 : Forall (made_by source lo k1) rest).
  { apply (Forall_impl (made_by source lo k1)
             (fun q => made_by_later lo k k1 q L1) F'). }
  specialize (IH (S i) k1 ltac:(lia) F1).
  destruct (sweep source w h (S i) rest k1) as [[rest' k2] evs]. simpl in *.
  constructor; [now apply (made_by_later lo k1 k2)|exact IH].
Qed.

Lemma made_by_tick (lo : nat) (st : State) :
  lo <= cursor st ->
  Forall (made_by source lo (cursor st)) (nodes st) ->
  Forall (made_by source lo (cursor (tick source st))) (nodes (tick source st)).
Proof.
  intros L F. unfold tick. rewrite animate_sweep.
  pose proof (made_by_sweep (width st) (height st) lo (nodes st) 0 (cursor st) L F) as S.
  destruct (sweep source (width st) (height st) 0 (nodes st) (cursor st))
    as [[ns k] evs]. exact S.
Qed.

Lemma made_by_trajectory (lo : nat) (cs : list Call) :
  forall st,
    lo <= cursor st ->
    Forall (made_by source lo (cursor st)) (nodes st) ->
    Forall (fun s => Forall (made_by source lo (cursor s)) (nodes s))
           (trajectory source st cs).
Proof.
  induction cs as [|c cs IH]; intros st L F; simpl; [constructor|].
  pose proof (step_cursor_le source st c) as L1.
  assert (G : Forall (made_by source lo (cursor (step source st c)))
                     (nodes (step source st c))).
  { destruct c; simpl; [now apply made_by_tick|exact F]. }
  constructor; [exact G|]. apply IH; [lia|exact G].
Qed.

(** X21.  In every number model, so in binary64: in every state of a run
    (after [initNebulaBackground] and after every frame or resize,
    whatever the window sizes) every node carries the size, the two
    speeds and the opacity that [reset] computed for it from four of six
    successive calls of [Math.random] the run has made: frames move
    nodes or replace them whole, and nothing else writes these
    fields. *)
Theorem run_keeps_nodes_well_made (seed : nat) (win : Window) (cs : list Call)
    (states : list State) :
  run true source seed win cs = Some states ->
  Forall (fun s => Forall (made_by source seed (cursor s)) (nodes s)) states.
Proof.
  intros Run. unfold run, initNebulaBackground in Run.
  destruct (animate source (construct source seed win)) as [st log] eqn:E.
  injection Run as <-.
  assert (T : st = tick source (construct source seed win))
    by (unfold tick; now rewrite E).
  pose proof (construct_cursor source seed win) as C.
  assert (F0 : Forall (made_by source seed (cursor (construct source seed win)))
                      (nodes (construct source seed win))).
  { rewrite construct_nodes, C. apply Forall_map, Forall_forall.
    intros i Hi. apply in_seq in Hi. apply made_by_fresh; lia. }
  assert (F : Forall (made_by source seed (cursor st)) (nodes st)).
  { rewrite T. apply made_by_tick; [lia|exact F0]. }
  pose proof (tick_cursor_le source (construct source seed win)) as L.
  constructor; [exact F|]. apply made_by_trajectory; [|exact F].
  rewrite T. lia.
Qed.

End NebulaRuns.

Lemma run_keeps_nodes_well_made_witness :
  exists states,
    Nebula.run (num:=PrimFloat.float) true Samples.steady 0 Samples.window_800_600
      [Nebula.Frame; Nebula.Resized Samples.window_800_600] = Some states
    /\ Forall (fun s => Forall (NebulaWords.made_by Samples.steady 0 (Nebula.cursor s))
                          (Nebula.nodes s)) states.
Proof.
  set (states :=
         match Nebula.run (num:=PrimFloat.float) true Samples.steady 0
                 Samples.window_800_600
                 [Nebula.Frame; Nebula.Resized Samples.window_800_600] with
         | Some l => l
         | None => []
         end).
  assert (E : Nebula.run (num:=PrimFloat.float) true Samples.steady 0
                Samples.window_800_600
                [Nebula.Frame; Nebula.Resized Samples.window_800_600] = Some states)
    by (vm_compute; reflexivity).
  exists states. split; [exact E|].
  exact (run_keeps_nodes_well_made Samples.steady 0 Samples.window_800_600 _ states E).
Defined.

Lemma frame_without_reset_witness :
  Forall (fun p => Nebula.outside (num:=PrimFloat.float) (int 800) (int 600)
                     (Nebula.advance p) = false)
    [Samples.left_node; Samples.right_node]
  /\ Nebula.nodes (Nebula.tick (num:=PrimFloat.float) Samples.steady
                     (Samples.field [Samples.left_node; Samples.right_node]))
     = map Nebula.advance [Samples.left_node; Samples.right_node]
  /\ Nebula.cursor (Nebula.tick (num:=PrimFloat.float) Samples.steady
                      (Samples.field [Samples.left_node; Samples.right_node])) = 0.
Proof.
  assert (F : Forall (fun p => Nebula.outside (num:=PrimFloat.float) (int 800) (int 600)
                                 (Nebula.advance p) = false)
                [Samples.left_node; Samples.right_node]).
  { repeat constructor. }
  split; [exact F|].
  exact (frame_without_reset (num:=PrimFloat.float) Samples.steady
           (Samples.field [Samples.left_node; Samples.right_node]) F).
Defined.

(** ** The boot sequence *)

Section BootResults.

Import Boot.
Local Open Scope string_scope.

(** X22.  What [initBootOrPageLoad] leads to, in binary64, in the order
    it happens.  Without a boot screen [startPageAnimations] runs at
    once, during the call, and the class [loaded] is added 100 ms
    later; nothing else happens, and [init3DGlobe] is never called.
    With a boot screen but without the log or the progress bar
    [runBootSequence] returns before it sets a timer: only [loaded] is
    added, the boot screen is never removed and the animations of the
    page never start.  With all three, the six lines are printed in the
    order of [bootMessages], the first at time 0, before [loaded] is
    added, and the last before 2600 ms with the bar at exactly 100
    percent; the screen fades at 2600 ms, and at 3100 ms it is removed,
    [startPageAnimations] runs and then [init3DGlobe]. *)
Theorem boot_reaches (pg : Page) :
  (bootScreen pg = false ->
   timeline (num:=PrimFloat.float) (initBootOrPageLoad pg)
   = [(int 0, StartPageAnimations); (int 100, AddLoaded)])
  /\ (bootScreen pg = true -> bootLog pg && bootProgress pg = false ->
      timeline (num:=PrimFloat.float) (initBootOrPageLoad pg) = [(int 100, AddLoaded)])
  /\ (bootScreen pg = true -> bootLog pg && bootProgress pg = true ->
      map snd (timeline (num:=PrimFloat.float) (initBootOrPageLoad pg))
      = [Append "> BIOS...OK" (lit 1 6 * int 100)%js;
         AddLoaded;
         Append "> Kernel...Loaded" (lit 2 6 * int 100)%js;
         Append "> GPU...Init" (lit 3 6 * int 100)%js;
         Append "> Net...Connected" (lit 4 6 * int 100)%js;
         Append "> User...Auth" (lit 5 6 * int 100)%js;
         Append "> System...Ready" (int 100);
         Fade; Remove; StartPageAnimations; Init3DGlobe]
      /\ map (fun e => ltb (fst e) (int 2600))
             (timeline (num:=PrimFloat.float) (initBootOrPageLoad pg))
         = [true; true; true; true; true; true; true; false; false; false; false]
      /\ map fst (skipn 7 (timeline (num:=PrimFloat.float) (initBootOrPageLoad pg)))
         = [int 2600; int 3100; int 3100; int 3100]
      /\ map fst (firstn 2 (timeline (num:=PrimFloat.float) (initBootOrPageLoad pg)))
         = [int 0; int 100]).
Proof.
  destruct pg as [[] [] []]; cbn [bootScreen bootLog bootProgress andb];
    (split; [intros E|split; intros E1 E2]);
    try discriminate; repeat split; vm_compute; reflexivity.
Qed.

Lemma boot_reaches_witness :
  timeline (num:=PrimFloat.float)
    (initBootOrPageLoad {| bootScreen := true; bootLog := false; bootProgress := true |})
  = [(int 100, AddLoaded)].
Proof.
  exact (proj1 (proj2 (boot_reaches
                         {| bootScreen := true; bootLog := false; bootProgress := true |}))
           eq_refl eq_refl).
Defined.

End BootResults.

(** ** Scroll reveal *)

Section RevealResults.

Import Reveal.

Lemma mem_In (el : nat) (l : list nat) : mem el l = true <-> In el l.
Proof.
  unfold mem. rewrite existsb_exists. split.
  - intros (x & I & E). apply Nat.eqb_eq in E. now subst.
  - intros I. exists el. split; [exact I|apply Nat.eqb_refl].
Qed.

Lemma In_observe (x el : nat) (l : list nat) :
  In x (observe el l) <-> x = el \/ In x l.
Proof.
  unfold observe. destruct (mem el l) eqn:M.
  - apply mem_In in M. split; [now right|]. intros [->|I]; assumption.
  - rewrite in_app_iff. simpl. intuition.
Qed.

Lemma NoDup_observe (el : nat) (l : list nat) : NoDup l -> NoDup (observe el l).
Proof.
  intros N. unfold observe. destruct (mem el l) eqn:M; [exact N|].
  assert (~ In el l) by (rewrite <- mem_In, M; discriminate).
  apply NoDup_app; [exact N|repeat constructor; simpl; tauto|].
  intros x I [<-|[]]. contradiction.
Qed.

Lemma In_unobserve (x el : nat) (l : list nat) :
  In x (unobserve el l) <-> In x l /\ x <> el.
Proof.
  unfold unobserve. rewrite filter_In, negb_true_iff, Nat.eqb_neq.
  intuition.
Qed.

Lemma NoDup_unobserve (el : nat) (l : list nat) : NoDup l -> NoDup (unobserve el l).
Proof. apply NoDup_filter. Qed.

Lemma init_from (targets : list nat) :
  forall st0, NoDup (observed st0) ->
    let st := fold_left
                (fun st el => {| marked := observe el (marked st);
                                 observed := observe el (observed st);
                                 timers := timers st |})
                targets st0 in
    NoDup (observed st)
    /\ (forall el, In el (observed st) <-> In el (observed st0) \/ In el targets)
    /\ (forall el, In el (marked st) <-> In el (marked st0) \/ In el targets)
    /\ timers st = timers st0.
Proof.
  induction targets as [|t rest IH]; intros st0 N; simpl.
  - repeat split; auto; tauto.
  - destruct (IH {| marked := observe t (marked st0);
                    observed := observe t (observed st0);
                    timers := timers st0 |}) as (N' & O & M & T).
    { now apply NoDup_observe. }
    simpl in *. repeat split; auto.
    + intros I. apply O in I. rewrite In_observe in I. intuition.
    + intros I. apply O. rewrite In_observe. intuition.
    + intros I. apply M in I. rewrite In_observe in I. intuition.
    + intros I. apply M. rewrite In_observe. intuition.
Qed.

Lemma each_spec (entries : list Entry) :
  forall k st,
    timers (each entries k st)
    = timers st
      ++ combine (map (fun n => n * 100) (seq k (List.length (shown entries))))
           (shown entries)
    /\ (forall el, In el (observed (each entries k st))
                   <-> In el (observed st) /\ ~ In el (shown entries))
    /\ (NoDup (observed st) -> NoDup (observed (each entries k st)))
    /\ marked (each entries k st) = marked st.
Proof.
  induction entries as [|e rest IH]; intros k st; simpl.
  - rewrite app_nil_r.
    split; [reflexivity|]. split; [|split; [auto|reflexivity]].
    intros el. tauto.
  - unfold shown in *. simpl. destruct (isIntersecting e); simpl.
    + destruct (IH (S k) {| marked := marked st;
                            observed := unobserve (target e) (observed st);
                            timers := timers st ++ [(k * 100, target e)] |})
        as (T & O & N & M).
      simpl in *. rewrite T, <- app_assoc.
      split; [reflexivity|]. split; [|split; [|exact M]].
      * intros el. rewrite O, In_unobserve. split.
        -- intros [[I D] NI]. split; [exact I|].
           intros [E|I']; [now subst|contradiction].
        -- intros [I NI]. split; [split; [exact I|]|]; intuition.
      * intros N0. now apply N, NoDup_unobserve.
    + apply IH.
Qed.

Lemma combine_snd (A B : Type) (l : list A) (l' : list B) :
  List.length l = List.length l' -> map snd (combine l l') = l'.
Proof.
  revert l'. induction l as [|a l IH]; intros [|b l'] E; simpl in *;
    try discriminate; auto.
  f_equal. apply IH. lia.
Qed.

Lemma shown_incl (entries : list Entry) : incl (shown entries) (map target entries).
Proof.
  intros x I. unfold shown in I. apply in_map_iff in I as (e & <- & F).
  apply filter_In in F as [F _]. now apply in_map.
Qed.

Lemma shown_NoDup (entries : list Entry) :
  NoDup (map target entries) -> NoDup (shown entries).
Proof.
  unfold shown. induction entries as [|e rest IH]; simpl; intros N; [constructor|].
  inversion N as [|? ? X N']; subst.
  destruct (isIntersecting e); simpl; [|now apply IH].
  constructor; [|now apply IH].
  intros I. apply X. now apply (shown_incl rest).
Qed.

(** The elements that were given a timer. *)
Lemma callback_targets (entries : list Entry) (st : State) :
  map snd (timers (callback entries st)) = map snd (timers st) ++ shown entries.
Proof.
  unfold callback. destruct (each_spec entries 0 st) as (T & _).
  rewrite T, map_app, combine_snd; [reflexivity|].
  now rewrite length_map, length_seq.
Qed.

Lemma run_invariant (targets : list nat) (batches : list (list Entry)) :
  forall st,
    NoDup (observed st) -> NoDup (map snd (timers st)) ->
    (forall el, In el (observed st) -> ~ In el (map snd (timers st))) ->
    delivered st batches ->
    let st' := fold_left (fun st entries => callback entries st) batches st in
    NoDup (observed st') /\ NoDup (map snd (timers st'))
    /\ (forall el, In el (observed st') -> ~ In el (map snd (timers st')))
    /\ (forall el, In el (observed st') \/ In el (map snd (timers st'))
                   <-> In el (observed st) \/ In el (map snd (timers st)))
    /\ marked st' = marked st.
Proof.
  induction batches as [|entries rest IH]; intros st N NT D Del; simpl.
  - repeat split; auto; tauto.
  - destruct Del as (ND & Inc & Del).
    pose proof (callback_targets entries st) as CT.
    destruct (each_spec entries 0 st) as (_ & O & NO & M).
    fold (callback entries st) in O, NO, M.
    pose proof (shown_NoDup entries ND) as NS.
    pose proof (shown_incl entries) as SI.
    destruct (IH (callback entries st)) as (A & B & C & E & F); auto.
    + rewrite CT. apply NoDup_app; auto.
      intros x I1 I2. apply (D x); auto.
    + intros el I. rewrite CT, in_app_iff. apply O in I. destruct I as [I NI].
      intros [I'|I']; [now apply (D el)|contradiction].
    + simpl in *. repeat split; auto.
      * intros I. apply E in I. rewrite CT, in_app_iff in I.
        destruct I as [I|[I|I]]; [apply O in I; tauto|tauto|].
        left. apply Inc, SI, I.
      * intros I. apply E. rewrite CT, in_app_iff.
        destruct I as [I|I]; [|tauto].
        destruct (in_dec Nat.eq_dec el (shown entries)) as [S|S]; [tauto|].
        left. apply O. tauto.
      * congruence.
Qed.

(** X23.  One batch of entries: the intersecting ones get a timer each,
    in the order of the batch, the first at once and each next one 100 ms
    later, and are no longer observed; the others stay observed and get
    no timer; the stagger starts again from zero with every batch. *)
Theorem batch_staggers (entries : list Entry) (st : State) :
  timers (callback entries st)
  = timers st
    ++ combine (map (fun n => n * 100) (seq 0 (List.length (shown entries))))
         (shown entries)
  /\ (forall el, In el (observed (callback entries st))
                 <-> In el (observed st) /\ ~ In el (shown entries)).
Proof.
  destruct (each_spec entries 0 st) as (T & O & _). split; [exact T|exact O].
Qed.

(** X24.  When the browser reports only observed elements, each once per
    batch, no element is ever given a second timer: after any batches
    the elements with a timer are distinct and none of them is still
    observed, and every target of the selector is either still observed
    or has its timer, never both; every target carries the class
    [reveal-on-scroll]. *)
Theorem reveal_once (targets : list nat) (batches : list (list Entry)) :
  delivered (initScrollReveal targets) batches ->
  NoDup (map snd (timers (run targets batches)))
  /\ (forall el, In el (observed (run targets batches))
                 -> ~ In el (map snd (timers (run targets batches))))
  /\ (forall el, In el targets
                 <-> In el (observed (run targets batches))
                     \/ In el (map snd (timers (run targets batches))))
  /\ (forall el, In el targets <-> In el (marked (run targets batches))).
Proof.
  intros Del. unfold run.
  destruct (init_from targets {| marked := []; observed := []; timers := [] |})
    as (N & O & M & T); [constructor|].
  fold (initScrollReveal targets) in N, O, M, T. simpl in O, M, T.
  destruct (run_invariant targets batches (initScrollReveal targets))
    as (A & B & C & E & F); auto.
  - rewrite T. constructor.
  - rewrite T. simpl. tauto.
  - simpl in *. repeat split; auto.
    + intros I. apply E. left. apply O. now right.
    + intros I. apply E in I. rewrite T in I. simpl in I.
      destruct I as [I|[]]. apply O in I. tauto.
    + intros I. rewrite F. apply M. now right.
    + intros I. rewrite F in I. apply M in I. tauto.
Qed.

Lemma reveal_once_witness :
  delivered (initScrollReveal [1; 2; 3; 2])
    [[{| target := 1; isIntersecting := true |};
      {| target := 2; isIntersecting := false |};
      {| target := 3; isIntersecting := true |}];
     [{| target := 2; isIntersecting := true |}]]
  /\ timers (run [1; 2; 3; 2]
               [[{| target := 1; isIntersecting := true |};
                 {| target := 2; isIntersecting := false |};
                 {| target := 3; isIntersecting := true |}];
                [{| target := 2; isIntersecting := true |}]])
     = [(0, 1); (100, 3); (0, 2)]
  /\ NoDup (map snd (timers (run [1; 2; 3; 2]
               [[{| target := 1; isIntersecting := true |};
                 {| target := 2; isIntersecting := false |};
                 {| target := 3; isIntersecting := true |}];
                [{| target := 2; isIntersecting := true |}]]))).
Proof.
  assert (D : delivered (initScrollReveal [1; 2; 3; 2])
    [[{| target := 1; isIntersecting := true |};
      {| target := 2; isIntersecting := false |};
      {| target := 3; isIntersecting := true |}];
     [{| target := 2; isIntersecting := true |}]]).
  { simpl. repeat split.
    - repeat constructor; simpl; intuition discriminate.
    - intros x I. vm_compute in I |- *. tauto.
    - repeat constructor; simpl; tauto.
    - intros x I. vm_compute in I |- *. tauto. }
  split; [exact D|]. split; [reflexivity|].
  exact (proj1 (reveal_once [1; 2; 3; 2] _ D)).
Defined.

End RevealResults.

(** ** The voxel model *)

Section VoxelResults.

Import Ascii Voxel.
Local Open Scope string_scope.

Context {num : Type} `{JSNumber num}.

Lemma row_length (y : nat) (rowStr : string) :
  forall x, List.length (row y x rowStr)
            = List.length (filter (fun c => negb (Ascii.eqb c "0"))
                             (list_ascii_of_string rowStr)).
Proof.
  induction rowStr as [|c rest IH]; intros x; simpl; [reflexivity|].
  rewrite length_app, IH. destruct (Ascii.eqb c "0"); reflexivity.
Qed.

Lemma rows_length (m : list string) :
  forall y, List.length (rows y m) = cells m.
Proof.
  induction m as [|r rest IH]; intros y; simpl; [reflexivity|].
  now rewrite length_app, row_length, IH.
Qed.

(** X25.  The model is built from the cells of the map that are not
    ['0'], 46 voxels of five faces each.  The two cells the code would
    draw as eyes, columns 3 and 7 of row 3, are ['0'] in the map: no
    voxel gets the class [glow-eye], the colour [#fff] or a box shadow;
    every voxel and every face has the highlight colour. *)
Theorem voxel_model_has_no_eyes :
  exists vs,
    initVoxelModel (num:=num) true = Some (vs, label)
    /\ List.length vs = cells map
    /\ List.length vs = 46
    /\ Forall (fun v =>
                 classList v = ["voxel"]
                 /\ backgroundColor v = "var(--highlight-color)"
                 /\ List.map face_className (faces v)
                    = ["v-front"; "v-right"; "v-left"; "v-top"; "v-bottom"]
                 /\ Forall (fun f => face_backgroundColor f = "var(--highlight-color)"
                                     /\ boxShadow f = None) (faces v)) vs.
Proof.
  eexists. split; [reflexivity|]. split; [apply rows_length|].
  split; [reflexivity|].
  cbv [rows row map voxel isEye Ascii.eqb Bool.eqb Nat.eqb andb orb app List.map].
  repeat (constructor; [repeat split; repeat constructor|]).
  constructor.
Qed.

End VoxelResults.
